(** * A fixed-capacity ring buffer: [src/ringbuff.cpp]

    Shallow embedding of the class template [RingBuffer<T>] and of its nested
    [RingBufferIterator], followed by the properties stated for it.

    - [size_t] is an unsigned 64-bit integer: a value is an [N] below [2^64],
      and every [+ 1], [++], [--] and [+] of the source is written with its
      wrap-around ([uadd], [uinc], [udec]).
    - [std::vector<T> buffer_] is a [list T]; [buffer_[i]] is stdpp's list
      lookup and insert. The vector does not check the index: an access at
      [i >= buffer_.size()] is undefined behaviour and is the outcome
      [Undefined] here, as is [% 0].
    - member functions are computations in a state-and-exception monad over
      the object: an exception leaves the object as it was when the [throw]
      was reached. *)

From Stdlib Require Import NArith Lia.
From stdpp Require Import base list strings.

Local Open Scope N_scope.

Module ringbuff.

(** ** [size_t] arithmetic *)

Definition SIZE_BITS : N := 64.
Definition SIZE_MODULUS : N := 2 ^ SIZE_BITS.
Definition SIZE_MAX : N := SIZE_MODULUS - 1.
Definition PTRDIFF_MAX : N := 2 ^ (SIZE_BITS - 1) - 1.

Definition uadd (a b : N) : N := (a + b) mod SIZE_MODULUS.
Definition uinc (a : N) : N := uadd a 1.
Definition udec (a : N) : N := (a + SIZE_MAX) mod SIZE_MODULUS.

(** ** Exceptions of the standard library thrown by the class *)

Inductive exception : Type :=
| invalid_argument (what : string)
| out_of_range (what : string)
| length_error
| bad_alloc.

(** Outcome of a call. [Undefined] is undefined behaviour (an unchecked
    vector access out of range, a remainder by zero); [OutOfFuel] only
    arises in the bounded loops of the callers modelled below. *)
Inductive result (A : Type) : Type :=
| Return (a : A)
| Throw (e : exception)
| Undefined
| OutOfFuel.

Arguments Return {A} a.
Arguments Throw {A} e.
Arguments Undefined {A}.
Arguments OutOfFuel {A}.

Section RingBuffer.

(** The element type, its value-initialised element [T()], the state a
    moved-from element is left in, and construction from arguments (for
    [emplace]). *)
Context {T : Type}.
Variable T_default : T.
Variable moved_from : T -> T.
Context {Args : Type}.
Variable T_construct : Args -> T.

(** [std::vector<T>::max_size()]: the vector's constructor throws
    [std::length_error] above it. It depends on [T] and on the
    implementation of the library; on a 64-bit target it is at most
    [PTRDIFF_MAX], which the properties of constructed buffers assume. *)
Variable max_size : N.

(** Whether the allocator hands out the storage of a vector of a given
    length when the constructor asks for it. The answer depends on the
    machine and on its state at the call, so it is a parameter; the vector's
    constructor throws [std::bad_alloc] when it is no. A vector of length
    zero asks for no storage. *)
Variable can_allocate : N -> bool.

Record RingBuffer : Type := mkRingBuffer {
  buffer_ : list T;
  capacity_ : N;
  head_ : N;
  tail_ : N;
  size_ : N
}.

Definition set_buffer (l : list T) (rb : RingBuffer) : RingBuffer :=
  mkRingBuffer l (capacity_ rb) (head_ rb) (tail_ rb) (size_ rb).
Definition set_head (h : N) (rb : RingBuffer) : RingBuffer :=
  mkRingBuffer (buffer_ rb) (capacity_ rb) h (tail_ rb) (size_ rb).
Definition set_tail (t : N) (rb : RingBuffer) : RingBuffer :=
  mkRingBuffer (buffer_ rb) (capacity_ rb) (head_ rb) t (size_ rb).
Definition set_size (n : N) (rb : RingBuffer) : RingBuffer :=
  mkRingBuffer (buffer_ rb) (capacity_ rb) (head_ rb) (tail_ rb) n.

(** ** The monad of member functions *)

Definition M (A : Type) : Type := RingBuffer -> result A * RingBuffer.

Definition ret {A} (a : A) : M A := fun rb => (Return a, rb).

Definition bind {A B} (m : M A) (k : A -> M B) : M B :=
  fun rb =>
    match m rb with
    | (Return a, rb') => k a rb'
    | (Throw e, rb') => (Throw e, rb')
    | (Undefined, rb') => (Undefined, rb')
    | (OutOfFuel, rb') => (OutOfFuel, rb')
    end.

Definition throw {A} (e : exception) : M A := fun rb => (Throw e, rb).
Definition undefined {A} : M A := fun rb => (Undefined, rb).
Definition out_of_fuel {A} : M A := fun rb => (OutOfFuel, rb).
Definition gets {A} (f : RingBuffer -> A) : M A := fun rb => (Return (f rb), rb).
Definition modify (f : RingBuffer -> RingBuffer) : M unit :=
  fun rb => (Return tt, f rb).

Notation "'do' x <- m ; k" := (bind m (fun x => k))
  (at level 10, x name, m at level 100, k at level 200).
Notation "'do' ' m ; k" := (bind m (fun _ => k))
  (at level 10, m at level 100, k at level 200).

(** [a % b] on [size_t]. *)
Definition urem (a b : N) : M N :=
  if b =? 0 then undefined else ret (a mod b).

(** [buffer_[i]] as an rvalue. *)
Definition vec_read (i : N) : M T :=
  fun rb =>
    match buffer_ rb !! N.to_nat i with
    | Some x => (Return x, rb)
    | None => (Undefined, rb)
    end.

(** [buffer_[i] = v]. *)
Definition vec_write (i : N) (v : T) : M unit :=
  fun rb =>
    if (N.to_nat i <? length (buffer_ rb))%nat
    then (Return tt, set_buffer (<[N.to_nat i := v]> (buffer_ rb)) rb)
    else (Undefined, rb).

(** [std::move(buffer_[i])] consumed by a move construction or a move
    assignment: the value leaves, the slot keeps a moved-from element. *)
Definition vec_move (i : N) : M T :=
  do x <- vec_read i;
  do ' vec_write i (moved_from x);
  ret x.

(** ** Construction *)

(** The member initialisers run first: [buffer_(capacity)] throws
    [std::length_error] for a length above [max_size()] and
    [std::bad_alloc] when the storage of a vector that is not empty cannot
    be allocated, and otherwise holds [capacity] value-initialised elements.
    Then the body rejects a zero capacity. An exception leaves no object. *)
Definition RingBuffer_new (capacity : N) : result RingBuffer :=
  if max_size <? capacity then Throw length_error
  else if negb (capacity =? 0) && negb (can_allocate capacity)
  then Throw bad_alloc
  else
    let rb := mkRingBuffer (replicate (N.to_nat capacity) T_default)
                           capacity 0 0 0 in
    if capacity =? 0
    then Throw (invalid_argument "RingBuffer capacity must be greater than 0.")
    else Return rb.

(** ** Status queries *)

Definition empty : M bool := gets (fun rb => size_ rb =? 0).
Definition full : M bool := gets (fun rb => size_ rb =? capacity_ rb).
Definition size : M N := gets size_.
Definition capacity : M N := gets capacity_.

(** ** Insertion *)

Definition push (item : T) : M unit :=
  do t <- gets tail_;
  do ' vec_write t item;
  do c <- gets capacity_;
  do t' <- urem (uinc t) c;
  do ' modify (set_tail t');
  do n <- gets size_;
  if n <? c then modify (set_size (uinc n))
  else
    do h <- gets head_;
    do h' <- urem (uinc h) c;
    modify (set_head h').

(** [push(T&&)]: the same statements; the element moved in comes from the
    caller, whose object is not part of the buffer's state. *)
Definition push_move (item : T) : M unit :=
  do t <- gets tail_;
  do ' vec_write t item;
  do c <- gets capacity_;
  do t' <- urem (uinc t) c;
  do ' modify (set_tail t');
  do n <- gets size_;
  if n <? c then modify (set_size (uinc n))
  else
    do h <- gets head_;
    do h' <- urem (uinc h) c;
    modify (set_head h').

Definition emplace (args : Args) : M unit :=
  do t <- gets tail_;
  do ' vec_write t (T_construct args);
  do c <- gets capacity_;
  do t' <- urem (uinc t) c;
  do ' modify (set_tail t');
  do n <- gets size_;
  if n <? c then modify (set_size (uinc n))
  else
    do h <- gets head_;
    do h' <- urem (uinc h) c;
    modify (set_head h').

Definition try_push (item : T) : M bool :=
  do f <- full;
  if f then ret false
  else
    do ' push item;
    ret true.

Definition try_push_move (item : T) : M bool :=
  do f <- full;
  if f then ret false
  else
    do ' push_move item;
    ret true.

(** ** Removal *)

Definition pop : M T :=
  do e <- empty;
  if e then throw (out_of_range "Cannot pop from an empty RingBuffer.")
  else
    do h <- gets head_;
    do item <- vec_move h;
    do c <- gets capacity_;
    do h' <- urem (uinc h) c;
    do ' modify (set_head h');
    do n <- gets size_;
    do ' modify (set_size (udec n));
    ret item.

(** [try_pop(T& out_item)]: the caller's object is passed in and its final
    value is returned next to the boolean. *)
Definition try_pop (out_item : T) : M (bool * T) :=
  do e <- empty;
  if e then ret (false, out_item)
  else
    do h <- gets head_;
    do x <- vec_move h;
    do c <- gets capacity_;
    do h' <- urem (uinc h) c;
    do ' modify (set_head h');
    do n <- gets size_;
    do ' modify (set_size (udec n));
    ret (true, x).

(** ** Peek and random access *)

Definition front : M T :=
  do e <- empty;
  if e then throw (out_of_range "Cannot get front from an empty RingBuffer.")
  else
    do h <- gets head_;
    vec_read h.

Definition at_ (index : N) : M T :=
  do n <- gets size_;
  if n <=? index
  then throw (out_of_range "Index out of bounds for RingBuffer::at()")
  else
    do h <- gets head_;
    do c <- gets capacity_;
    do i <- urem (uadd h index) c;
    vec_read i.

Definition at_const (index : N) : M T :=
  do n <- gets size_;
  if n <=? index
  then throw (out_of_range "Index out of bounds for RingBuffer::at() const")
  else
    do h <- gets head_;
    do c <- gets capacity_;
    do i <- urem (uadd h index) c;
    vec_read i.

Definition clear : M unit :=
  do ' modify (set_head 0);
  do ' modify (set_tail 0);
  modify (set_size 0).

(** ** The iterator

    [data_ptr_] is [buffer_.data()]; no member function resizes the vector,
    so the pointer designates the storage of the buffer for the buffer's
    whole life and a dereference reads [buffer_] of the current object. *)

Record RingBufferIterator : Type := mkIterator {
  current_logical_index_ : N;
  buffer_head_ : N;
  buffer_capacity_ : N
}.

Definition begin : M RingBufferIterator :=
  do h <- gets head_;
  do c <- gets capacity_;
  ret (mkIterator 0 h c).

Definition end_ : M RingBufferIterator :=
  do n <- gets size_;
  do h <- gets head_;
  do c <- gets capacity_;
  ret (mkIterator n h c).

(** [operator*] *)
Definition iter_deref (it : RingBufferIterator) : M T :=
  do i <- urem (uadd (buffer_head_ it) (current_logical_index_ it))
               (buffer_capacity_ it);
  vec_read i.

(** [operator++] *)
Definition iter_incr (it : RingBufferIterator) : RingBufferIterator :=
  mkIterator (uinc (current_logical_index_ it))
             (buffer_head_ it) (buffer_capacity_ it).

(** [operator==] and [operator!=] *)
Definition iter_eq (a b : RingBufferIterator) : bool :=
  current_logical_index_ a =? current_logical_index_ b.
Definition iter_neq (a b : RingBufferIterator) : bool := negb (iter_eq a b).

(** ** Callers' loops *)

(** The loop a range-based [for] over the buffer expands to: [it] starts at
    [begin()], [e] is [end()] taken once, and while [it != e] the element
    [it] designates is collected and [it] incremented. *)
Fixpoint iterate (fuel : nat) (it e : RingBufferIterator) : M (list T) :=
  if iter_neq it e then
    match fuel with
    | O => out_of_fuel
    | S fuel' =>
        do x <- iter_deref it;
        do xs <- iterate fuel' (iter_incr it) e;
        ret (x :: xs)
    end
  else ret [].

Definition traverse (fuel : nat) : M (list T) :=
  do b <- begin;
  do e <- end_;
  iterate fuel b e.

(** [for (auto& v : items) rb.push(v);] *)
Fixpoint push_all (items : list T) : M unit :=
  match items with
  | [] => ret tt
  | v :: items' =>
      do ' push v;
      push_all items'
  end.

(** [for (i = 0; i < n; ++i) out.push_back(rb.pop());] *)
Fixpoint pop_n (n : nat) : M (list T) :=
  match n with
  | O => ret []
  | S n' =>
      do x <- pop;
      do xs <- pop_n n';
      ret (x :: xs)
  end.

(** [while (!rb.empty()) out.push_back(rb.pop());] *)
Fixpoint drain (fuel : nat) : M (list T) :=
  do e <- empty;
  if e then ret []
  else
    match fuel with
    | O => out_of_fuel
    | S fuel' =>
        do x <- pop;
        do xs <- drain fuel';
        ret (x :: xs)
    end.

(** A call of any member function, and a caller that runs a sequence of
    them, catching what is thrown and going on. [run] lists the outcome of
    every call with the object after it. *)
Inductive op : Type :=
| op_push (item : T)
| op_push_move (item : T)
| op_emplace (args : Args)
| op_try_push (item : T)
| op_try_push_move (item : T)
| op_pop
| op_try_pop (out_item : T)
| op_front
| op_at (index : N)
| op_at_const (index : N)
| op_empty
| op_full
| op_size
| op_capacity
| op_clear.

Definition discard {A} (m : M A) : M unit :=
  do ' m;
  ret tt.

Definition call (o : op) : M unit :=
  match o with
  | op_push item => push item
  | op_push_move item => push_move item
  | op_emplace args => emplace args
  | op_try_push item => discard (try_push item)
  | op_try_push_move item => discard (try_push_move item)
  | op_pop => discard pop
  | op_try_pop out_item => discard (try_pop out_item)
  | op_front => discard front
  | op_at index => discard (at_ index)
  | op_at_const index => discard (at_const index)
  | op_empty => discard empty
  | op_full => discard full
  | op_size => discard size
  | op_capacity => discard capacity
  | op_clear => clear
  end.

Fixpoint run (ops : list op) (rb : RingBuffer) : list (result unit * RingBuffer) :=
  match ops with
  | [] => []
  | o :: ops' =>
      let r := call o rb in
      r :: run ops' (snd r)
  end.

(** ** Invariant and abstraction *)

(** What holds of every buffer a program can hold: the storage has
    [capacity_] slots, and the indices are related as the class keeps
    them. *)
Record wf (rb : RingBuffer) : Prop := mk_wf {
  wf_storage : length (buffer_ rb) = N.to_nat (capacity_ rb);
  wf_capacity_max : capacity_ rb <= PTRDIFF_MAX;
  wf_head : head_ rb < capacity_ rb;
  wf_tail : tail_ rb < capacity_ rb;
  wf_size : size_ rb <= capacity_ rb;
  wf_tail_eq : tail_ rb = (head_ rb + size_ rb) mod capacity_ rb
}.

(** Storage slot of logical position [j]. *)
Definition slot (rb : RingBuffer) (j : N) : N :=
  (head_ rb + j) mod capacity_ rb.

(** The logical contents, front first. *)
Definition contents (rb : RingBuffer) : list T :=
  (fun j => nth (N.to_nat (slot rb (N.of_nat j))) (buffer_ rb) T_default)
    <$> seq 0 (N.to_nat (size_ rb)).

(** A call is [safe] when it neither runs into undefined behaviour nor
    leaves a loop unfinished. *)
Definition safe {A} (r : result A) : Prop :=
  match r with
  | Return _ | Throw _ => True
  | Undefined | OutOfFuel => False
  end.

(** The object [push] leaves, and the one [pop] and [try_pop] leave, on a
    well-formed buffer ([push_wf], [pop_wf], [try_pop_wf]). *)
Definition pushed (item : T) (rb : RingBuffer) : RingBuffer :=
  mkRingBuffer (<[N.to_nat (tail_ rb) := item]> (buffer_ rb))
               (capacity_ rb)
               (if size_ rb <? capacity_ rb then head_ rb
                else (head_ rb + 1) mod capacity_ rb)
               ((tail_ rb + 1) mod capacity_ rb)
               (if size_ rb <? capacity_ rb then size_ rb + 1 else size_ rb).

Definition popped (rb : RingBuffer) : RingBuffer :=
  mkRingBuffer (<[N.to_nat (head_ rb) :=
                    moved_from (nth (N.to_nat (head_ rb)) (buffer_ rb) T_default)]>
                  (buffer_ rb))
               (capacity_ rb)
               ((head_ rb + 1) mod capacity_ rb)
               (tail_ rb)
               (size_ rb - 1).

(** The object a sequence of [push] leaves. *)
Definition pushed_all (items : list T) (rb : RingBuffer) : RingBuffer :=
  fold_left (fun rb' item => pushed item rb') items rb.

(** The last [c] elements of a list (all of it when it is shorter). *)
Definition last_n (c : nat) (l : list T) : list T :=
  drop (length l - c) l.

(** ** Further members and uses *)

(** [begin() const], [end() const], [cbegin()] and [cend()] build the same
    iterators as [begin()] and [end()] (the [const_cast] only changes the
    type of the pointer). *)
Definition begin_const : M RingBufferIterator :=
  do h <- gets head_;
  do c <- gets capacity_;
  ret (mkIterator 0 h c).

Definition end_const : M RingBufferIterator :=
  do n <- gets size_;
  do h <- gets head_;
  do c <- gets capacity_;
  ret (mkIterator n h c).

Definition cbegin : M RingBufferIterator :=
  do h <- gets head_;
  do c <- gets capacity_;
  ret (mkIterator 0 h c).

Definition cend : M RingBufferIterator :=
  do n <- gets size_;
  do h <- gets head_;
  do c <- gets capacity_;
  ret (mkIterator n h c).

(** [operator++(int)]: the copy made before the increment is returned, next
    to the iterator after it. *)
Definition iter_post_incr (it : RingBufferIterator)
  : RingBufferIterator * RingBufferIterator :=
  let tmp := it in
  (tmp, iter_incr it).

(** [buffer_[i]] as an lvalue: the reference is the slot it designates, and
    forming it out of the storage is undefined. *)
Definition vec_ref (i : N) : M N :=
  fun rb =>
    if (N.to_nat i <? length (buffer_ rb))%nat
    then (Return i, rb)
    else (Undefined, rb).

(** [T& at(size_t index)] with the reference it returns kept as a
    reference. *)
Definition at_ref (index : N) : M N :=
  do n <- gets size_;
  if n <=? index
  then throw (out_of_range "Index out of bounds for RingBuffer::at()")
  else
    do h <- gets head_;
    do c <- gets capacity_;
    do i <- urem (uadd h index) c;
    vec_ref i.

(** [rb.at(index) = v;] *)
Definition at_assign (index : N) (v : T) : M unit :=
  do r <- at_ref index;
  vec_write r v.

(** The object [rb.at(index) = v;] leaves when [index] is in bounds. *)
Definition assigned (index : N) (v : T) (rb : RingBuffer) : RingBuffer :=
  set_buffer (<[N.to_nat (slot rb index) := v]> (buffer_ rb)) rb.

(** ** Arithmetic of [size_t] *)

Lemma SIZE_MODULUS_val : SIZE_MODULUS = 18446744073709551616.
Proof. reflexivity. Qed.

Lemma SIZE_MAX_val : SIZE_MAX = 18446744073709551615.
Proof. reflexivity. Qed.

Lemma PTRDIFF_MAX_val : PTRDIFF_MAX = 9223372036854775807.
Proof. reflexivity. Qed.

Lemma uadd_small a b : a + b < SIZE_MODULUS -> uadd a b = a + b.
Proof. intros H. unfold uadd. now apply N.mod_small. Qed.

Lemma uinc_small a : a < SIZE_MAX -> uinc a = a + 1.
Proof.
  intros H. apply uadd_small. rewrite SIZE_MAX_val in H.
  rewrite SIZE_MODULUS_val. lia.
Qed.

Lemma udec_pos a : 0 < a -> a < SIZE_MODULUS -> udec a = a - 1.
Proof.
  intros H0 H1. unfold udec.
  replace (a + SIZE_MAX) with ((a - 1) + 1 * SIZE_MODULUS)
    by (rewrite SIZE_MAX_val, SIZE_MODULUS_val in *; lia).
  rewrite N.Div0.mod_add. apply N.mod_small. lia.
Qed.

(** One step around the ring. *)
Lemma mod_wrap a b c :
  a < c -> b <= c ->
  (a + b) mod c = if a + b <? c then a + b else a + b - c.
Proof.
  intros Ha Hb. destruct (N.ltb_spec (a + b) c) as [H|H].
  - now apply N.mod_small.
  - replace (a + b) with ((a + b - c) + 1 * c) at 1 by lia.
    rewrite N.Div0.mod_add. apply N.mod_small. lia.
Qed.

Lemma mod_succ a c :
  a < c -> (a + 1) mod c = if a + 1 <? c then a + 1 else 0.
Proof.
  intros Ha. rewrite mod_wrap by lia.
  destruct (N.ltb_spec (a + 1) c); lia.
Qed.

(** ** What each member function does on a well-formed buffer *)

Lemma wf_capacity_pos rb : wf rb -> 0 < capacity_ rb.
Proof. intros [? ? ? ? ? ?]. lia. Qed.

Lemma wf_capacity_size_max rb : wf rb -> capacity_ rb < SIZE_MAX.
Proof.
  intros [? Hc ? ? ? ?]. rewrite PTRDIFF_MAX_val in Hc.
  rewrite SIZE_MAX_val. lia.
Qed.

Lemma wf_read rb i :
  wf rb -> i < capacity_ rb ->
  buffer_ rb !! N.to_nat i = Some (nth (N.to_nat i) (buffer_ rb) T_default).
Proof.
  intros Hwf Hi. destruct Hwf as [Hlen _ _ _ _ _].
  rewrite nth_lookup.
  destruct (lookup_lt_is_Some_2 (buffer_ rb) (N.to_nat i)) as [x ->]; [lia|].
  reflexivity.
Qed.

Lemma push_wf item rb : wf rb -> push item rb = (Return tt, pushed item rb).
Proof.
  intros Hwf. pose proof (wf_capacity_pos _ Hwf) as Hpos.
  pose proof (wf_capacity_size_max _ Hwf) as Hmax.
  destruct Hwf as [Hlen Hc Hh Ht Hs Hte].
  unfold push, pushed, bind, gets, vec_write, urem, modify, ret; simpl.
  assert ((N.to_nat (tail_ rb) <? length (buffer_ rb))%nat = true) as ->
    by (apply Nat.ltb_lt; lia).
  simpl. assert ((capacity_ rb =? 0) = false) as -> by (apply N.eqb_neq; lia).
  simpl. rewrite !uinc_small by lia.
  destruct (N.ltb_spec (size_ rb) (capacity_ rb)); simpl;
    [|rewrite uinc_small by lia]; reflexivity.
Qed.

Lemma push_move_eq item : push_move item = push item.
Proof. reflexivity. Qed.

Lemma emplace_eq args : emplace args = push (T_construct args).
Proof. reflexivity. Qed.

Lemma vec_move_wf rb i :
  wf rb -> i < capacity_ rb ->
  vec_move i rb =
    (Return (nth (N.to_nat i) (buffer_ rb) T_default),
     set_buffer (<[N.to_nat i :=
                     moved_from (nth (N.to_nat i) (buffer_ rb) T_default)]>
                   (buffer_ rb)) rb).
Proof.
  intros Hwf Hi. unfold vec_move, bind, vec_read, vec_write, ret.
  rewrite (wf_read _ _ Hwf Hi). simpl.
  destruct Hwf as [Hlen _ _ _ _ _].
  assert ((N.to_nat i <? length (buffer_ rb))%nat = true) as ->
    by (apply Nat.ltb_lt; lia).
  reflexivity.
Qed.

Lemma pop_wf rb :
  wf rb -> size_ rb <> 0 ->
  pop rb = (Return (nth (N.to_nat (head_ rb)) (buffer_ rb) T_default), popped rb).
Proof.
  intros Hwf Hne. pose proof (wf_capacity_pos _ Hwf) as Hpos.
  pose proof (wf_capacity_size_max _ Hwf) as Hmax.
  pose proof (vec_move_wf _ _ Hwf (wf_head _ Hwf)) as Hmv.
  destruct Hwf as [Hlen Hc Hh Ht Hs Hte].
  unfold pop, bind at 1, empty, gets.
  assert ((size_ rb =? 0) = false) as -> by (apply N.eqb_neq; lia).
  unfold bind at 1. unfold bind at 1. rewrite Hmv.
  unfold bind, gets, urem, modify, ret, popped, set_buffer; simpl.
  assert ((capacity_ rb =? 0) = false) as -> by (apply N.eqb_neq; lia).
  simpl. rewrite uinc_small by lia.
  rewrite udec_pos by (rewrite ?SIZE_MODULUS_val, ?SIZE_MAX_val in *; lia).
  reflexivity.
Qed.

Lemma pop_empty rb :
  size_ rb = 0 ->
  pop rb = (Throw (out_of_range "Cannot pop from an empty RingBuffer."), rb).
Proof. intros H. unfold pop, bind, empty, gets, throw. now rewrite H. Qed.

Lemma try_pop_wf out_item rb :
  wf rb -> size_ rb <> 0 ->
  try_pop out_item rb =
    (Return (true, nth (N.to_nat (head_ rb)) (buffer_ rb) T_default), popped rb).
Proof.
  intros Hwf Hne. pose proof (wf_capacity_pos _ Hwf) as Hpos.
  pose proof (wf_capacity_size_max _ Hwf) as Hmax.
  pose proof (vec_move_wf _ _ Hwf (wf_head _ Hwf)) as Hmv.
  destruct Hwf as [Hlen Hc Hh Ht Hs Hte].
  unfold try_pop, bind at 1, empty, gets.
  assert ((size_ rb =? 0) = false) as -> by (apply N.eqb_neq; lia).
  unfold bind at 1. unfold bind at 1. rewrite Hmv.
  unfold bind, gets, urem, modify, ret, popped, set_buffer; simpl.
  assert ((capacity_ rb =? 0) = false) as -> by (apply N.eqb_neq; lia).
  simpl. rewrite uinc_small by lia.
  rewrite udec_pos by (rewrite ?SIZE_MODULUS_val, ?SIZE_MAX_val in *; lia).
  reflexivity.
Qed.

Lemma try_pop_empty out_item rb :
  size_ rb = 0 -> try_pop out_item rb = (Return (false, out_item), rb).
Proof. intros H. unfold try_pop, bind, empty, gets, ret. now rewrite H. Qed.

Lemma front_wf rb :
  wf rb -> size_ rb <> 0 ->
  front rb = (Return (nth (N.to_nat (head_ rb)) (buffer_ rb) T_default), rb).
Proof.
  intros Hwf Hne. unfold front, bind, empty, gets, vec_read.
  assert ((size_ rb =? 0) = false) as -> by (apply N.eqb_neq; lia).
  now rewrite (wf_read _ _ Hwf (wf_head _ Hwf)).
Qed.

Lemma front_empty rb :
  size_ rb = 0 ->
  front rb = (Throw (out_of_range "Cannot get front from an empty RingBuffer."), rb).
Proof. intros H. unfold front, bind, empty, gets, throw. now rewrite H. Qed.

Lemma slot_lt rb j : wf rb -> slot rb j < capacity_ rb.
Proof.
  intros Hwf. apply N.mod_upper_bound.
  pose proof (wf_capacity_pos _ Hwf). lia.
Qed.

Lemma at_wf rb index :
  wf rb -> index < size_ rb ->
  at_ index rb =
    (Return (nth (N.to_nat (slot rb index)) (buffer_ rb) T_default), rb).
Proof.
  intros Hwf Hi. pose proof (wf_capacity_pos _ Hwf) as Hpos.
  pose proof (wf_read _ _ Hwf (slot_lt _ index Hwf)) as Hrd.
  destruct Hwf as [Hlen Hc Hh Ht Hs Hte].
  unfold at_, bind, gets, urem, ret, vec_read.
  assert ((size_ rb <=? index) = false) as -> by (apply N.leb_gt; lia).
  assert ((capacity_ rb =? 0) = false) as -> by (apply N.eqb_neq; lia).
  rewrite uadd_small
    by (rewrite SIZE_MODULUS_val; rewrite PTRDIFF_MAX_val in Hc; lia).
  fold (slot rb index). now rewrite Hrd.
Qed.

Lemma at_out_of_bounds rb index :
  size_ rb <= index ->
  at_ index rb =
    (Throw (out_of_range "Index out of bounds for RingBuffer::at()"), rb).
Proof.
  intros H. unfold at_, bind, gets, throw.
  now assert ((size_ rb <=? index) = true) as -> by (apply N.leb_le; lia).
Qed.

Lemma at_const_wf rb index :
  wf rb -> index < size_ rb ->
  at_const index rb =
    (Return (nth (N.to_nat (slot rb index)) (buffer_ rb) T_default), rb).
Proof.
  intros Hwf Hi. pose proof (wf_capacity_pos _ Hwf) as Hpos.
  pose proof (wf_read _ _ Hwf (slot_lt _ index Hwf)) as Hrd.
  destruct Hwf as [Hlen Hc Hh Ht Hs Hte].
  unfold at_const, bind, gets, urem, ret, vec_read.
  assert ((size_ rb <=? index) = false) as -> by (apply N.leb_gt; lia).
  assert ((capacity_ rb =? 0) = false) as -> by (apply N.eqb_neq; lia).
  rewrite uadd_small
    by (rewrite SIZE_MODULUS_val; rewrite PTRDIFF_MAX_val in Hc; lia).
  fold (slot rb index). now rewrite Hrd.
Qed.

Lemma at_const_out_of_bounds rb index :
  size_ rb <= index ->
  at_const index rb =
    (Throw (out_of_range "Index out of bounds for RingBuffer::at() const"), rb).
Proof.
  intros H. unfold at_const, bind, gets, throw.
  now assert ((size_ rb <=? index) = true) as -> by (apply N.leb_le; lia).
Qed.

(** ** The invariant is kept *)

Lemma pushed_wf item rb : wf rb -> wf (pushed item rb).
Proof.
  intros [Hlen Hc Hh Ht Hs Hte]. unfold pushed.
  constructor; simpl.
  - rewrite length_insert. exact Hlen.
  - exact Hc.
  - destruct (N.ltb_spec (size_ rb) (capacity_ rb)); [exact Hh|].
    apply N.mod_upper_bound. lia.
  - apply N.mod_upper_bound. lia.
  - destruct (N.ltb_spec (size_ rb) (capacity_ rb)); lia.
  - rewrite Hte. rewrite (mod_wrap (head_ rb) (size_ rb)) by lia.
    destruct (N.ltb_spec (size_ rb) (capacity_ rb)) as [H|H].
    + destruct (N.ltb_spec (head_ rb + size_ rb) (capacity_ rb)) as [H'|H'].
      * rewrite N.add_assoc. rewrite !mod_wrap by lia.
        destruct (N.ltb_spec (head_ rb + size_ rb + 1) (capacity_ rb)); lia.
      * rewrite (mod_wrap (head_ rb) (size_ rb + 1)) by lia.
        rewrite (mod_wrap (head_ rb + size_ rb - capacity_ rb) 1) by lia.
        destruct (N.ltb_spec (head_ rb + size_ rb - capacity_ rb + 1) (capacity_ rb));
          destruct (N.ltb_spec (head_ rb + (size_ rb + 1)) (capacity_ rb)); lia.
    + assert (size_ rb = capacity_ rb) as Hfull by lia.
      rewrite Hfull.
      assert ((head_ rb + capacity_ rb <? capacity_ rb) = false) as ->
        by (apply N.ltb_ge; lia).
      replace (head_ rb + capacity_ rb - capacity_ rb) with (head_ rb) by lia.
      rewrite (mod_succ (head_ rb)) by lia.
      destruct (N.ltb_spec (head_ rb + 1) (capacity_ rb)) as [H1|H1].
      * rewrite mod_wrap by lia.
        assert ((head_ rb + 1 + capacity_ rb <? capacity_ rb) = false) as ->
          by (apply N.ltb_ge; lia).
        lia.
      * rewrite N.add_0_l, N.Div0.mod_same. reflexivity.
Qed.

Lemma popped_wf rb : wf rb -> size_ rb <> 0 -> wf (popped rb).
Proof.
  intros [Hlen Hc Hh Ht Hs Hte] Hne. unfold popped.
  constructor; simpl.
  - rewrite length_insert. exact Hlen.
  - exact Hc.
  - apply N.mod_upper_bound. lia.
  - exact Ht.
  - lia.
  - rewrite Hte. rewrite (mod_succ (head_ rb)) by lia.
    rewrite (mod_wrap (head_ rb) (size_ rb)) by lia.
    destruct (N.ltb_spec (head_ rb + 1) (capacity_ rb)) as [H1|H1].
    + rewrite mod_wrap by lia.
      replace (head_ rb + 1 + (size_ rb - 1)) with (head_ rb + size_ rb) by lia.
      reflexivity.
    + rewrite N.add_0_l.
      assert ((head_ rb + size_ rb <? capacity_ rb) = false) as ->
        by (apply N.ltb_ge; lia).
      rewrite N.mod_small by lia. lia.
Qed.

Lemma clear_eq rb :
  clear rb =
    (Return tt, mkRingBuffer (buffer_ rb) (capacity_ rb) 0 0 0).
Proof. reflexivity. Qed.

Lemma cleared_wf rb :
  wf rb -> wf (mkRingBuffer (buffer_ rb) (capacity_ rb) 0 0 0).
Proof.
  intros Hwf. pose proof (wf_capacity_pos _ Hwf) as Hpos.
  destruct Hwf as [Hlen Hc Hh Ht Hs Hte].
  constructor; simpl; try assumption; try lia.
  rewrite N.mod_small; lia.
Qed.

Lemma RingBuffer_new_Return capacity rb :
  RingBuffer_new capacity = Return rb ->
  1 <= capacity /\ capacity <= max_size /\
  rb = mkRingBuffer (replicate (N.to_nat capacity) T_default) capacity 0 0 0.
Proof.
  unfold RingBuffer_new.
  destruct (N.ltb_spec max_size capacity); [discriminate|].
  destruct (N.eqb_spec capacity 0); simpl; [discriminate|].
  destruct (can_allocate capacity); simpl; [|discriminate].
  intros [= <-]. repeat split; lia.
Qed.

Lemma RingBuffer_new_wf capacity rb :
  max_size <= PTRDIFF_MAX ->
  RingBuffer_new capacity = Return rb -> wf rb.
Proof.
  intros Hmax H. apply RingBuffer_new_Return in H as (H1 & H2 & ->).
  constructor; simpl.
  - apply length_replicate.
  - lia.
  - lia.
  - lia.
  - lia.
  - rewrite N.mod_small; lia.
Qed.

Lemma try_push_full item rb :
  size_ rb = capacity_ rb -> try_push item rb = (Return false, rb).
Proof.
  intros H. unfold try_push, bind, full, gets, ret.
  rewrite H, N.eqb_refl. reflexivity.
Qed.

Lemma try_push_wf item rb :
  wf rb -> size_ rb <> capacity_ rb ->
  try_push item rb = (Return true, pushed item rb).
Proof.
  intros Hwf H. unfold try_push, bind at 1, full, gets.
  assert ((size_ rb =? capacity_ rb) = false) as -> by (now apply N.eqb_neq).
  unfold bind. rewrite (push_wf _ _ Hwf). reflexivity.
Qed.

Lemma try_push_move_eq item : try_push_move item = try_push item.
Proof. reflexivity. Qed.

Lemma call_wf o rb :
  wf rb ->
  safe (fst (call o rb)) /\ wf (snd (call o rb)) /\
  capacity_ (snd (call o rb)) = capacity_ rb.
Proof.
  intros Hwf. destruct o as [v|v|a|v|v| |out| |i|i| | | | |]; simpl call.
  - rewrite push_wf by assumption. simpl. auto using pushed_wf.
  - rewrite push_move_eq, push_wf by assumption. simpl. auto using pushed_wf.
  - rewrite emplace_eq, push_wf by assumption. simpl. auto using pushed_wf.
  - unfold discard, bind. destruct (N.eq_dec (size_ rb) (capacity_ rb)) as [H|H].
    + rewrite try_push_full by assumption. simpl. auto.
    + rewrite try_push_wf by assumption. simpl. auto using pushed_wf.
  - unfold discard, bind. rewrite try_push_move_eq.
    destruct (N.eq_dec (size_ rb) (capacity_ rb)) as [H|H].
    + rewrite try_push_full by assumption. simpl. auto.
    + rewrite try_push_wf by assumption. simpl. auto using pushed_wf.
  - unfold discard, bind. destruct (N.eq_dec (size_ rb) 0) as [H|H].
    + rewrite pop_empty by assumption. simpl. auto.
    + rewrite pop_wf by assumption. simpl. auto using popped_wf.
  - unfold discard, bind. destruct (N.eq_dec (size_ rb) 0) as [H|H].
    + rewrite try_pop_empty by assumption. simpl. auto.
    + rewrite try_pop_wf by assumption. simpl. auto using popped_wf.
  - unfold discard, bind. destruct (N.eq_dec (size_ rb) 0) as [H|H].
    + rewrite front_empty by assumption. simpl. auto.
    + rewrite front_wf by assumption. simpl. auto.
  - unfold discard, bind. destruct (N.le_gt_cases (size_ rb) i) as [H|H].
    + rewrite at_out_of_bounds by assumption. simpl. auto.
    + rewrite at_wf by assumption. simpl. auto.
  - unfold discard, bind. destruct (N.le_gt_cases (size_ rb) i) as [H|H].
    + rewrite at_const_out_of_bounds by assumption. simpl. auto.
    + rewrite at_const_wf by assumption. simpl. auto.
  - simpl. auto.
  - simpl. auto.
  - simpl. auto.
  - simpl. auto.
  - rewrite clear_eq. simpl. auto using cleared_wf.
Qed.

Lemma run_wf ops : forall rb,
  wf rb ->
  Forall (fun r => safe (fst r) /\ wf (snd r) /\
                   capacity_ (snd r) = capacity_ rb) (run ops rb).
Proof.
  induction ops as [|o ops IH]; intros rb Hwf; simpl.
  - constructor.
  - destruct (call_wf o rb Hwf) as (Hs & Hw & Hc).
    constructor; [auto|].
    specialize (IH _ Hw). rewrite Hc in IH. exact IH.
Qed.

(** ** The logical contents *)

Lemma contents_length rb : length (contents rb) = N.to_nat (size_ rb).
Proof. unfold contents. now rewrite length_fmap, length_seq. Qed.

Lemma contents_lookup rb j :
  (j < N.to_nat (size_ rb))%nat ->
  contents rb !! j =
    Some (nth (N.to_nat (slot rb (N.of_nat j))) (buffer_ rb) T_default).
Proof.
  intros Hj. unfold contents.
  rewrite list_lookup_fmap, lookup_seq_lt by assumption. reflexivity.
Qed.

Lemma slot_0 rb : wf rb -> slot rb 0 = head_ rb.
Proof.
  intros [_ _ Hh _ _ _]. unfold slot. rewrite N.add_0_r.
  now apply N.mod_small.
Qed.

Lemma slot_size rb : wf rb -> slot rb (size_ rb) = tail_ rb.
Proof. intros [_ _ _ _ _ Hte]. now rewrite Hte. Qed.

(** Distinct logical positions below the capacity lie in distinct slots. *)
Lemma slot_inj rb i j :
  wf rb -> i < capacity_ rb -> j < capacity_ rb ->
  slot rb i = slot rb j -> i = j.
Proof.
  intros [_ _ Hh _ _ _] Hi Hj. unfold slot.
  rewrite !mod_wrap by lia.
  destruct (N.ltb_spec (head_ rb + i) (capacity_ rb));
    destruct (N.ltb_spec (head_ rb + j) (capacity_ rb)); lia.
Qed.

Lemma slot_popped rb j :
  wf rb -> slot (popped rb) j = slot rb (j + 1).
Proof.
  intros Hwf. unfold slot, popped; simpl.
  rewrite N.Div0.add_mod_idemp_l. f_equal. lia.
Qed.

Lemma contents_popped rb :
  wf rb -> size_ rb <> 0 ->
  contents rb =
    nth (N.to_nat (head_ rb)) (buffer_ rb) T_default :: contents (popped rb).
Proof.
  intros Hwf Hne. unfold contents at 1.
  assert (N.to_nat (size_ rb) = S (N.to_nat (size_ (popped rb)))) as ->
    by (simpl; lia).
  simpl seq. rewrite fmap_cons. change (N.of_nat 0) with 0.
  rewrite (slot_0 _ Hwf). f_equal.
  apply list_eq. intros j.
  rewrite <- fmap_S_seq, <- list_fmap_compose.
  destruct (Nat.lt_ge_cases j (N.to_nat (size_ (popped rb)))) as [Hj|Hj].
  - rewrite contents_lookup by assumption.
    rewrite list_lookup_fmap, lookup_seq_lt by assumption. simpl.
    rewrite slot_popped by assumption.
    replace (N.of_nat j + 1) with (N.of_nat (S j)) by lia.
    f_equal. symmetry.
    rewrite (nth_lookup (<[_:=_]> _)), list_lookup_insert_ne.
    + now rewrite <- nth_lookup.
    + intros Heq. apply N2Nat.inj in Heq.
      rewrite <- (slot_0 _ Hwf) in Heq.
      apply slot_inj in Heq; try assumption.
      * lia.
      * pose proof (wf_capacity_pos _ Hwf). lia.
      * pose proof (wf_size _ Hwf). simpl in Hj. lia.
  - rewrite !lookup_ge_None_2; [reflexivity| |].
    + now rewrite contents_length.
    + now rewrite length_fmap, length_seq.
Qed.

Lemma contents_pushed_room item rb :
  wf rb -> size_ rb < capacity_ rb ->
  contents (pushed item rb) = contents rb ++ [item].
Proof.
  intros Hwf Hlt. unfold contents, pushed; simpl.
  assert ((size_ rb <? capacity_ rb) = true) as -> by (now apply N.ltb_lt).
  replace (N.to_nat (size_ rb + 1)) with (N.to_nat (size_ rb) + 1)%nat by lia.
  rewrite seq_app, fmap_app. simpl. f_equal.
  - apply list_fmap_ext. intros i j Hij.
    apply lookup_seq in Hij as [-> Hi]. simpl.
    unfold slot; simpl. fold (slot rb (N.of_nat i)).
    rewrite (nth_lookup (<[_:=_]> _)), list_lookup_insert_ne.
    + now rewrite <- nth_lookup.
    + intros Heq. apply N2Nat.inj in Heq.
      rewrite <- (slot_size _ Hwf) in Heq.
      apply slot_inj in Heq; try assumption; lia.
  - f_equal. unfold slot; simpl. fold (slot rb (N.of_nat (N.to_nat (size_ rb)))).
    rewrite N2Nat.id, (slot_size _ Hwf).
    apply nth_lookup_Some, list_lookup_insert_eq.
    pose proof (wf_tail _ Hwf). rewrite (wf_storage _ Hwf). lia.
Qed.

(** On a full buffer [push] leaves what it leaves after the front is
    removed. *)
Lemma pushed_full item rb :
  wf rb -> size_ rb = capacity_ rb ->
  pushed item rb = pushed item (popped rb).
Proof.
  intros Hwf Hfull. pose proof (wf_capacity_pos _ Hwf) as Hpos.
  assert (tail_ rb = head_ rb) as Hth.
  { rewrite (wf_tail_eq _ Hwf), Hfull.
    pose proof (wf_head _ Hwf).
    replace (head_ rb + capacity_ rb) with (head_ rb + 1 * capacity_ rb) by lia.
    rewrite N.Div0.mod_add. now apply N.mod_small. }
  unfold pushed, popped; simpl. rewrite Hfull, Hth.
  assert ((capacity_ rb <? capacity_ rb) = false) as -> by (apply N.ltb_ge; lia).
  assert ((capacity_ rb - 1 <? capacity_ rb) = true) as -> by (apply N.ltb_lt; lia).
  rewrite list_insert_insert_eq. f_equal. lia.
Qed.

Lemma contents_pushed item rb :
  wf rb ->
  contents (pushed item rb) =
    (if size_ rb <? capacity_ rb then contents rb else tail (contents rb))
    ++ [item].
Proof.
  intros Hwf. destruct (N.ltb_spec (size_ rb) (capacity_ rb)) as [H|H].
  - now apply contents_pushed_room.
  - pose proof (wf_size _ Hwf). pose proof (wf_capacity_pos _ Hwf).
    assert (size_ rb = capacity_ rb) as Hfull by lia.
    assert (size_ rb <> 0) as Hne by lia.
    rewrite pushed_full by assumption.
    rewrite contents_pushed_room.
    + now rewrite (contents_popped rb).
    + now apply popped_wf.
    + simpl. lia.
Qed.

(** ** Sequences of calls *)

Lemma pushed_capacity item rb : capacity_ (pushed item rb) = capacity_ rb.
Proof. reflexivity. Qed.

Lemma pushed_all_wf items : forall rb,
  wf rb ->
  wf (pushed_all items rb) /\
  capacity_ (pushed_all items rb) = capacity_ rb.
Proof.
  induction items as [|v items IH]; intros rb Hwf; simpl.
  - auto.
  - destruct (IH (pushed v rb) (pushed_wf v rb Hwf)) as [H1 H2]. auto.
Qed.

Lemma push_all_wf items : forall rb,
  wf rb -> push_all items rb = (Return tt, pushed_all items rb).
Proof.
  induction items as [|v items IH]; intros rb Hwf; simpl.
  - reflexivity.
  - unfold bind. rewrite push_wf by assumption.
    apply IH. now apply pushed_wf.
Qed.

Lemma last_n_all c (l : list T) : (length l <= c)%nat -> last_n c l = l.
Proof.
  intros H. unfold last_n.
  now replace (length l - c)%nat with 0%nat by lia.
Qed.

Lemma last_n_cons c x (l : list T) :
  (c <= length l)%nat -> last_n c (x :: l) = last_n c l.
Proof.
  intros H. unfold last_n. simpl length.
  now replace (S (length l) - c)%nat with (S (length l - c)) by lia.
Qed.

Lemma contents_pushed_all items : forall rb,
  wf rb ->
  contents (pushed_all items rb) =
    last_n (N.to_nat (capacity_ rb)) (contents rb ++ items).
Proof.
  induction items as [|v items IH]; intros rb Hwf; simpl.
  - rewrite app_nil_r, last_n_all; [reflexivity|].
    rewrite contents_length. pose proof (wf_size _ Hwf). lia.
  - rewrite (IH _ (pushed_wf v rb Hwf)), pushed_capacity.
    rewrite contents_pushed by assumption.
    destruct (N.ltb_spec (size_ rb) (capacity_ rb)) as [H|H].
    + now rewrite <- app_assoc.
    + pose proof (contents_length rb) as Hlen.
      pose proof (wf_size _ Hwf). pose proof (wf_capacity_pos _ Hwf).
      destruct (contents rb) as [|x l]; simpl in Hlen; [lia|].
      simpl tail. rewrite <- app_assoc. simpl.
      rewrite last_n_cons; [reflexivity|].
      rewrite length_app. simpl. lia.
Qed.

Lemma pop_n_wf n : forall rb,
  wf rb -> (n <= N.to_nat (size_ rb))%nat ->
  exists rb',
    pop_n n rb = (Return (take n (contents rb)), rb') /\ wf rb' /\
    contents rb' = drop n (contents rb) /\
    capacity_ rb' = capacity_ rb /\
    N.to_nat (size_ rb') = (N.to_nat (size_ rb) - n)%nat.
Proof.
  induction n as [|n IH]; intros rb Hwf Hn; simpl pop_n.
  - exists rb. repeat apply conj; auto; lia.
  - assert (size_ rb <> 0) as Hne by lia.
    destruct (IH (popped rb) (popped_wf _ Hwf Hne)) as (rb' & H1 & H2 & H3 & H4 & H5);
      [simpl; lia|].
    exists rb'. unfold bind. rewrite pop_wf, H1 by assumption.
    rewrite (contents_popped rb) by assumption. simpl.
    repeat apply conj; auto. simpl in H5. lia.
Qed.

Lemma drain_wf fuel : forall rb,
  wf rb -> (N.to_nat (size_ rb) <= fuel)%nat ->
  exists rb',
    drain fuel rb = (Return (contents rb), rb') /\ wf rb' /\
    size_ rb' = 0 /\ capacity_ rb' = capacity_ rb.
Proof.
  induction fuel as [|fuel IH]; intros rb Hwf Hn.
  - exists rb. assert (size_ rb = 0) as H0 by lia.
    unfold drain, bind, empty, gets, ret. rewrite H0. simpl.
    unfold contents. rewrite H0. auto.
  - destruct (N.eq_dec (size_ rb) 0) as [H0|Hne].
    + exists rb. simpl. unfold bind, empty, gets, ret. rewrite H0. simpl.
      unfold contents. rewrite H0. auto.
    + destruct (IH (popped rb) (popped_wf _ Hwf Hne)) as (rb' & H1 & H2 & H3 & H4);
        [simpl; lia|].
      exists rb'. simpl. unfold bind at 1, empty, gets.
      assert ((size_ rb =? 0) = false) as -> by (now apply N.eqb_neq).
      unfold bind. rewrite pop_wf, H1 by assumption.
      rewrite (contents_popped rb) by assumption. auto.
Qed.

Lemma iter_deref_wf rb i :
  wf rb -> i <= capacity_ rb ->
  iter_deref (mkIterator i (head_ rb) (capacity_ rb)) rb =
    (Return (nth (N.to_nat (slot rb i)) (buffer_ rb) T_default), rb).
Proof.
  intros Hwf Hi. pose proof (wf_capacity_pos _ Hwf) as Hpos.
  pose proof (wf_read _ _ Hwf (slot_lt _ i Hwf)) as Hrd.
  destruct Hwf as [Hlen Hc Hh Ht Hs Hte].
  unfold iter_deref, bind, urem, ret, vec_read; simpl.
  assert ((capacity_ rb =? 0) = false) as -> by (apply N.eqb_neq; lia).
  rewrite uadd_small
    by (rewrite SIZE_MODULUS_val; rewrite PTRDIFF_MAX_val in Hc; lia).
  fold (slot rb i). now rewrite Hrd.
Qed.

Lemma iterate_wf fuel : forall rb i,
  wf rb -> i <= size_ rb -> (N.to_nat (size_ rb - i) <= fuel)%nat ->
  iterate fuel (mkIterator i (head_ rb) (capacity_ rb))
               (mkIterator (size_ rb) (head_ rb) (capacity_ rb)) rb =
    (Return (drop (N.to_nat i) (contents rb)), rb).
Proof.
  induction fuel as [|fuel IH]; intros rb i Hwf Hi Hf.
  - assert (i = size_ rb) as -> by lia.
    simpl. unfold iter_neq, iter_eq; simpl. rewrite N.eqb_refl. simpl.
    rewrite drop_ge by (rewrite contents_length; lia). reflexivity.
  - simpl. unfold iter_neq, iter_eq; simpl.
    destruct (N.eqb_spec i (size_ rb)) as [->|Hne]; simpl.
    + rewrite drop_ge by (rewrite contents_length; lia). reflexivity.
    + pose proof (wf_size _ Hwf) as Hs.
      pose proof (wf_capacity_size_max _ Hwf) as Hmax.
      unfold bind. rewrite iter_deref_wf by (assumption || lia).
      unfold iter_incr; simpl. rewrite uinc_small by lia.
      rewrite IH by (assumption || lia).
      unfold ret. f_equal. f_equal.
      rewrite (drop_S (contents rb)
                 (nth (N.to_nat (slot rb i)) (buffer_ rb) T_default)
                 (N.to_nat i)).
      * f_equal. f_equal. lia.
      * rewrite contents_lookup by lia. now rewrite N2Nat.id.
Qed.

Lemma traverse_wf fuel rb :
  wf rb -> (N.to_nat (size_ rb) <= fuel)%nat ->
  traverse fuel rb = (Return (contents rb), rb).
Proof.
  intros Hwf Hf. unfold traverse, bind, begin, end_, gets, ret; simpl.
  rewrite (iterate_wf fuel rb 0) by (assumption || lia). reflexivity.
Qed.

Lemma pushed_all_size_empty items rb :
  wf rb -> size_ rb = 0 ->
  (length items <= N.to_nat (capacity_ rb))%nat ->
  contents (pushed_all items rb) = items.
Proof.
  intros Hwf H0 Hlen. rewrite contents_pushed_all by assumption.
  unfold contents at 1. rewrite H0. simpl. now apply last_n_all.
Qed.

Lemma iter_deref_safe rb it :
  wf rb -> buffer_capacity_ it = capacity_ rb -> safe (fst (iter_deref it rb)).
Proof.
  intros Hwf Hc. pose proof (wf_capacity_pos _ Hwf) as Hpos.
  unfold iter_deref, bind, urem, ret, vec_read. rewrite Hc.
  assert ((capacity_ rb =? 0) = false) as -> by (apply N.eqb_neq; lia).
  rewrite (wf_read rb) by (assumption || (apply N.mod_upper_bound; lia)).
  exact I.
Qed.

(** ** The properties *)

(** C1. From a buffer that was constructed with capacity [capacity] (the
    vector's [max_size()] being at most [PTRDIFF_MAX], as it is), after
    every call of a sequence of calls of the member functions (insertions,
    removals, accesses, queries, [clear]; what is thrown is caught): the
    call ended (by a return or an exception), [head_] and [tail_] are below
    the capacity, [size_] is at most the capacity,
    [tail_ = (head_ + size_) mod capacity_], and [capacity_] is still
    [capacity], which is at least one. *)
Theorem structural_invariants capacity rb ops :
  max_size <= PTRDIFF_MAX ->
  RingBuffer_new capacity = Return rb ->
  1 <= capacity /\
  Forall (fun r =>
            safe (fst r) /\
            head_ (snd r) < capacity_ (snd r) /\
            tail_ (snd r) < capacity_ (snd r) /\
            0 <= size_ (snd r) <= capacity_ (snd r) /\
            tail_ (snd r) = (head_ (snd r) + size_ (snd r)) mod capacity_ (snd r) /\
            capacity_ (snd r) = capacity)
         (run ops rb).
Proof.
  intros Hmax Hnew. pose proof (RingBuffer_new_wf _ _ Hmax Hnew) as Hwf.
  apply RingBuffer_new_Return in Hnew as (Hc & _ & Hrb).
  split; [exact Hc|].
  assert (capacity_ rb = capacity) as Hcap by (now subst rb).
  eapply Forall_impl; [apply run_wf, Hwf|].
  intros [r rb'] (Hs & [_ _ Hh Ht Hsz Hte] & Hc'); simpl in *.
  repeat apply conj; auto; try lia; congruence.
Qed.

(** C2. Pushing [items], no more of them than the capacity, into an empty
    buffer and then popping as many times returns [items], in the order
    they were pushed, and leaves the buffer empty. *)
Theorem fifo_order rb items :
  wf rb -> size_ rb = 0 ->
  (length items <= N.to_nat (capacity_ rb))%nat ->
  exists rb1 rb2,
    push_all items rb = (Return tt, rb1) /\
    pop_n (length items) rb1 = (Return items, rb2) /\
    size_ rb2 = 0.
Proof.
  intros Hwf H0 Hlen.
  destruct (pushed_all_wf items rb Hwf) as [Hwf1 Hc1].
  pose proof (pushed_all_size_empty items rb Hwf H0 Hlen) as Hcont.
  pose proof (contents_length (pushed_all items rb)) as Hsz.
  rewrite Hcont in Hsz.
  destruct (pop_n_wf (length items) (pushed_all items rb) Hwf1) as
    (rb2 & Hpop & _ & _ & _ & Hsz2); [lia|].
  exists (pushed_all items rb), rb2.
  rewrite push_all_wf by assumption.
  rewrite Hcont, firstn_all in Hpop.
  repeat apply conj; auto. lia.
Qed.

(** C3. Pushing [c + k] values into an empty buffer of capacity [c] and
    then popping until the buffer is empty returns the last [c] of them
    (the values after the first [k]), in the order they were pushed. The
    loop ends within [c] rounds. (Stated for every [k]; [k >= 1] is the
    case where elements are overwritten.) *)
Theorem overwrite_keeps_last rb items k fuel :
  wf rb -> size_ rb = 0 ->
  length items = (N.to_nat (capacity_ rb) + k)%nat ->
  (N.to_nat (capacity_ rb) <= fuel)%nat ->
  exists rb1 rb2,
    push_all items rb = (Return tt, rb1) /\
    drain fuel rb1 = (Return (drop k items), rb2) /\
    length (drop k items) = N.to_nat (capacity_ rb) /\
    size_ rb2 = 0.
Proof.
  intros Hwf H0 Hlen Hfuel.
  destruct (pushed_all_wf items rb Hwf) as [Hwf1 Hc1].
  assert (contents (pushed_all items rb) = drop k items) as Hcont.
  { rewrite contents_pushed_all by assumption.
    unfold contents at 1. rewrite H0. simpl. unfold last_n.
    f_equal. lia. }
  destruct (drain_wf fuel (pushed_all items rb) Hwf1) as
    (rb2 & Hdr & _ & Hsz2 & _).
  { pose proof (wf_size _ Hwf1). lia. }
  exists (pushed_all items rb), rb2.
  rewrite push_all_wf by assumption. rewrite Hcont in Hdr.
  repeat apply conj; auto. rewrite length_drop. lia.
Qed.

(** C4. On a full buffer ([full()] returns true) [try_push] returns false
    and leaves the object as it was, so [size()], [front()] and [at(i)] for
    every [i] answer as before; on a buffer that is not full it returns
    true and leaves the object [push] leaves. The overload taking an rvalue
    does the same. *)
Theorem try_push_rejects_when_full item rb :
  wf rb ->
  (fst (full rb) = Return true ->
   try_push item rb = (Return false, rb) /\
   try_push_move item rb = (Return false, rb) /\
   size (snd (try_push item rb)) = size rb /\
   front (snd (try_push item rb)) = front rb /\
   forall i, at_ i (snd (try_push item rb)) = at_ i rb) /\
  (fst (full rb) = Return false ->
   push item rb = (Return tt, snd (push item rb)) /\
   try_push item rb = (Return true, snd (push item rb)) /\
   try_push_move item rb = (Return true, snd (push_move item rb))).
Proof.
  intros Hwf. unfold full, gets; simpl. split; intros [= Hf].
  - apply N.eqb_eq in Hf.
    change (try_push_move item rb) with (try_push item rb).
    rewrite try_push_full by assumption. simpl. auto.
  - apply N.eqb_neq in Hf.
    change (try_push_move item rb) with (try_push item rb).
    change (push_move item rb) with (push item rb).
    rewrite try_push_wf, push_wf by assumption. simpl. auto.
Qed.

(** C5. On an empty buffer [pop] and [front] throw [std::out_of_range] (the
    empty-buffer error) and [try_pop] returns false, each leaving the
    object as it was. On a buffer that is not empty [front] returns the
    element [x] in slot [head_]; [pop] returns it and [try_pop] returns true
    and hands it over, both leaving [head_] advanced to
    [(head_ + 1) mod capacity_], [size_] one less, and as logical contents
    those that followed [x]. *)
Theorem pop_front_try_pop out_item rb :
  wf rb ->
  (size_ rb = 0 ->
   pop rb = (Throw (out_of_range "Cannot pop from an empty RingBuffer."), rb) /\
   front rb =
     (Throw (out_of_range "Cannot get front from an empty RingBuffer."), rb) /\
   try_pop out_item rb = (Return (false, out_item), rb)) /\
  (size_ rb <> 0 ->
   exists x rb',
     buffer_ rb !! N.to_nat (head_ rb) = Some x /\
     front rb = (Return x, rb) /\
     pop rb = (Return x, rb') /\
     try_pop out_item rb = (Return (true, x), rb') /\
     head_ rb' = (head_ rb + 1) mod capacity_ rb /\
     size_ rb' + 1 = size_ rb /\
     tail_ rb' = tail_ rb /\
     capacity_ rb' = capacity_ rb /\
     contents rb = x :: contents rb').
Proof.
  intros Hwf. split; intros Hs.
  - now rewrite pop_empty, front_empty, try_pop_empty.
  - exists (nth (N.to_nat (head_ rb)) (buffer_ rb) T_default), (popped rb).
    rewrite pop_wf, front_wf, try_pop_wf by assumption.
    repeat apply conj; auto.
    + apply wf_read; [assumption|]. now apply wf_head.
    + simpl. lia.
    + now apply contents_popped.
Qed.

(** C6. [at(i)] returns exactly when [i < size()]: it then gives the
    element in slot [(head_ + i) mod capacity_] and leaves the object
    ([head_], [tail_], [size_] and the rest) as it was; for [i >= size()]
    it throws [std::out_of_range] (the index error), the object again as it
    was. The same for the [const] overload. *)
Theorem at_checks_bounds index rb :
  wf rb ->
  (index < size_ rb ->
   exists x,
     buffer_ rb !! N.to_nat ((head_ rb + index) mod capacity_ rb) = Some x /\
     contents rb !! N.to_nat index = Some x /\
     at_ index rb = (Return x, rb) /\
     at_const index rb = (Return x, rb)) /\
  (size_ rb <= index ->
   at_ index rb =
     (Throw (out_of_range "Index out of bounds for RingBuffer::at()"), rb) /\
   at_const index rb =
     (Throw (out_of_range "Index out of bounds for RingBuffer::at() const"),
      rb)) /\
  (index < size_ rb <-> exists x rb', at_ index rb = (Return x, rb')).
Proof.
  intros Hwf. repeat apply conj.
  - intros Hi.
    exists (nth (N.to_nat (slot rb index)) (buffer_ rb) T_default).
    rewrite at_wf, at_const_wf by assumption. repeat apply conj; auto.
    + apply wf_read; [assumption|]. now apply slot_lt.
    + rewrite contents_lookup by lia. now rewrite N2Nat.id.
  - intros Hi. now rewrite at_out_of_bounds, at_const_out_of_bounds.
  - intros Hi. rewrite at_wf by assumption. eauto.
  - intros (x & rb' & Hat). destruct (N.lt_ge_cases index (size_ rb)) as [H|H];
      [assumption|].
    rewrite at_out_of_bounds in Hat by assumption. discriminate.
Qed.

(** C7 (as amended). Construction with capacity zero throws
    [std::invalid_argument] and leaves no object. With a capacity of at
    least one it returns exactly when the vector of that many slots can be
    made, that is when the capacity is not above the [max_size()] of the
    vector and the allocation of the storage succeeds: the buffer then has
    that capacity, [size_], [head_] and [tail_] zero and a storage of
    exactly that many slots. Otherwise the vector's constructor throws,
    [std::length_error] above [max_size()] and [std::bad_alloc] when the
    storage cannot be allocated, and no object is left. *)
Theorem construction capacity :
  (capacity = 0 ->
   RingBuffer_new capacity =
     Throw (invalid_argument "RingBuffer capacity must be greater than 0.")) /\
  (1 <= capacity -> max_size < capacity ->
   RingBuffer_new capacity = Throw length_error) /\
  (1 <= capacity <= max_size -> can_allocate capacity = false ->
   RingBuffer_new capacity = Throw bad_alloc) /\
  (1 <= capacity <= max_size -> can_allocate capacity = true ->
   exists rb,
     RingBuffer_new capacity = Return rb /\
     size_ rb = 0 /\ head_ rb = 0 /\ tail_ rb = 0 /\
     capacity_ rb = capacity /\
     length (buffer_ rb) = N.to_nat capacity).
Proof.
  unfold RingBuffer_new. repeat apply conj.
  - intros ->. now destruct (N.ltb_spec max_size 0); [lia|].
  - intros _ H. now destruct (N.ltb_spec max_size capacity); [|lia].
  - intros [H1 H2] Hno.
    destruct (N.ltb_spec max_size capacity); [lia|].
    destruct (N.eqb_spec capacity 0); [lia|].
    now rewrite Hno.
  - intros [H1 H2] Hyes.
    destruct (N.ltb_spec max_size capacity); [lia|].
    destruct (N.eqb_spec capacity 0); [lia|].
    rewrite Hyes. simpl.
    eexists. split; [reflexivity|]. simpl.
    repeat apply conj; auto. apply length_replicate.
Qed.

(** C8. A traversal from [begin()] to [end()] ends (within [size_]
    rounds), leaves the object as it was and yields [size_] elements, the
    one at position [j] being the element of slot
    [(head_ + j) mod capacity_], which is what [at(j)] returns. *)
Theorem traversal_yields_contents fuel rb :
  wf rb -> (N.to_nat (size_ rb) <= fuel)%nat ->
  exists xs,
    traverse fuel rb = (Return xs, rb) /\
    length xs = N.to_nat (size_ rb) /\
    forall j, j < size_ rb ->
      exists x,
        xs !! N.to_nat j = Some x /\
        buffer_ rb !! N.to_nat ((head_ rb + j) mod capacity_ rb) = Some x /\
        at_ j rb = (Return x, rb).
Proof.
  intros Hwf Hfuel. exists (contents rb).
  rewrite traverse_wf by assumption.
  repeat apply conj; auto using contents_length.
  intros j Hj.
  exists (nth (N.to_nat (slot rb j)) (buffer_ rb) T_default).
  rewrite at_wf by assumption. repeat apply conj; auto.
  - rewrite contents_lookup by lia. now rewrite N2Nat.id.
  - apply wf_read; [assumption|]. now apply slot_lt.
Qed.

(** C9. From a buffer that was constructed (the vector's [max_size()] being
    at most [PTRDIFF_MAX], as it is), along every sequence of calls: the
    capacity stays the one given, which is at least one, and the storage
    keeps exactly that many slots; no call runs into undefined behaviour;
    and dereferencing an iterator of the buffer, whatever its position, does
    not either. Undefined behaviour is what a remainder by zero and a read
    or a write of the storage at an index that is not below its length
    are, and nothing else. *)
Theorem no_undefined_behaviour capacity rb ops :
  max_size <= PTRDIFF_MAX ->
  RingBuffer_new capacity = Return rb ->
  1 <= capacity /\
  Forall (fun r =>
            safe (fst r) /\
            capacity_ (snd r) = capacity /\
            length (buffer_ (snd r)) = N.to_nat capacity /\
            forall it, buffer_capacity_ it = capacity_ (snd r) ->
                       safe (fst (iter_deref it (snd r))))
         (run ops rb) /\
  (forall a b rb', safe (fst (urem a b rb')) <-> b <> 0) /\
  (forall i rb',
     safe (fst (vec_read i rb')) <-> (N.to_nat i < length (buffer_ rb'))%nat) /\
  (forall i v rb',
     safe (fst (vec_write i v rb')) <->
     (N.to_nat i < length (buffer_ rb'))%nat).
Proof.
  intros Hmax Hnew. pose proof (RingBuffer_new_wf _ _ Hmax Hnew) as Hwf.
  apply RingBuffer_new_Return in Hnew as (Hc & _ & Hrb).
  split; [exact Hc|].
  assert (capacity_ rb = capacity) as Hcap by (now subst rb).
  repeat apply conj.
  - eapply Forall_impl; [apply run_wf, Hwf|].
    intros [r rb'] (Hs & Hwf' & Hc'); simpl in *.
    repeat apply conj; auto.
    + congruence.
    + rewrite (wf_storage _ Hwf'). congruence.
    + intros it Hit. now apply iter_deref_safe.
  - intros a b rb'. unfold urem. destruct (N.eqb_spec b 0); simpl; tauto.
  - intros i rb'. unfold vec_read. split; intros H.
    + destruct (buffer_ rb' !! N.to_nat i) eqn:E; [|destruct H].
      now apply lookup_lt_Some in E.
    + destruct (lookup_lt_is_Some_2 _ _ H) as [x ->]. exact I.
  - intros i v rb'. unfold vec_write.
    destruct (Nat.ltb_spec (N.to_nat i) (length (buffer_ rb'))); simpl;
      split; intros H'; (assumption || exact I || lia || destruct H').
Qed.

(** C10. [try_pop] on an empty buffer returns false and the caller's
    [out_item] keeps the value it had; whenever [try_pop] returns, the value
    of [out_item] is the one it had if false is returned and the element
    that was at the front if true is returned, and true is returned exactly
    when the buffer was not empty. *)
Theorem try_pop_out_item out_item rb :
  wf rb ->
  (size_ rb = 0 -> try_pop out_item rb = (Return (false, out_item), rb)) /\
  exists b out_item' rb',
    try_pop out_item rb = (Return (b, out_item'), rb') /\
    (b = true <-> size_ rb <> 0) /\
    (b = false -> out_item' = out_item /\ rb' = rb) /\
    (b = true -> buffer_ rb !! N.to_nat (head_ rb) = Some out_item').
Proof.
  intros Hwf. split; [apply try_pop_empty|].
  destruct (N.eq_dec (size_ rb) 0) as [H0|Hne].
  - exists false, out_item, rb. rewrite try_pop_empty by assumption.
    repeat apply conj; auto; try discriminate; congruence.
  - exists true, (nth (N.to_nat (head_ rb)) (buffer_ rb) T_default), (popped rb).
    rewrite try_pop_wf by assumption.
    repeat apply conj; auto; try discriminate.
    intros _. apply wf_read; [assumption|]. now apply wf_head.
Qed.

(** ** Further properties *)

Lemma at_contents rb index x :
  wf rb -> contents rb !! N.to_nat index = Some x ->
  at_ index rb = (Return x, rb).
Proof.
  intros Hwf Hx. pose proof (lookup_lt_Some _ _ _ Hx) as Hlt.
  rewrite contents_length in Hlt.
  rewrite contents_lookup in Hx by assumption. rewrite N2Nat.id in Hx.
  rewrite at_wf by (assumption || lia). congruence.
Qed.

Lemma contents_empty rb : size_ rb = 0 -> contents rb = [].
Proof. intros H. unfold contents. now rewrite H. Qed.

Lemma pushed_size item rb :
  size_ (pushed item rb) = N.min (size_ rb + 1) (capacity_ rb) \/
  capacity_ rb < size_ rb.
Proof.
  unfold pushed; simpl.
  destruct (N.ltb_spec (size_ rb) (capacity_ rb)); lia.
Qed.

(** X1. [clear] returns and leaves an empty buffer of the same capacity
    over the same storage, whatever the buffer held: [empty()] is true,
    [size()] is zero, [pop] throws, and what is pushed next is held as in a
    buffer that never held anything. *)
Theorem clear_resets rb items :
  wf rb ->
  exists rb0,
    clear rb = (Return tt, rb0) /\
    wf rb0 /\
    empty rb0 = (Return true, rb0) /\
    size rb0 = (Return 0, rb0) /\
    capacity_ rb0 = capacity_ rb /\
    buffer_ rb0 = buffer_ rb /\
    contents rb0 = [] /\
    pop rb0 =
      (Throw (out_of_range "Cannot pop from an empty RingBuffer."), rb0) /\
    contents (snd (push_all items rb0)) =
      last_n (N.to_nat (capacity_ rb)) items.
Proof.
  intros Hwf. pose proof (cleared_wf _ Hwf) as Hwf0.
  eexists. split; [apply clear_eq|].
  repeat apply conj; auto.
  rewrite push_all_wf by assumption. simpl.
  now rewrite contents_pushed_all by assumption.
Qed.

(** X2. [empty()] is true exactly when the buffer holds nothing and
    [full()] exactly when it holds as many elements as its capacity; the
    two are never true together. *)
Theorem empty_full_exclusive rb :
  wf rb ->
  (fst (empty rb) = Return true <-> contents rb = []) /\
  (fst (full rb) = Return true <->
   length (contents rb) = N.to_nat (capacity_ rb)) /\
  ~ (fst (empty rb) = Return true /\ fst (full rb) = Return true).
Proof.
  intros Hwf. pose proof (wf_capacity_pos _ Hwf) as Hpos.
  pose proof (contents_length rb) as Hlen.
  unfold empty, full, gets; simpl. repeat apply conj.
  - intros [= H]. apply N.eqb_eq in H. now apply contents_empty.
  - intros H. rewrite H in Hlen. simpl in Hlen.
    assert (size_ rb = 0) as -> by lia. reflexivity.
  - intros [= H]. apply N.eqb_eq in H. lia.
  - intros H. assert (size_ rb = capacity_ rb) as -> by lia.
    now rewrite N.eqb_refl.
  - intros [[= H1] [= H2]]. apply N.eqb_eq in H1, H2. lia.
Qed.

(** X3. [head_] and [tail_] coincide exactly when the buffer is empty or
    full. *)
Theorem head_meets_tail rb :
  wf rb ->
  (head_ rb = tail_ rb <-> size_ rb = 0 \/ size_ rb = capacity_ rb).
Proof.
  intros [_ _ Hh Ht Hs Hte]. rewrite Hte.
  rewrite mod_wrap by lia.
  destruct (N.ltb_spec (head_ rb + size_ rb) (capacity_ rb)); lia.
Qed.

(** X4. [push] always returns. The element becomes the last of the logical
    contents, readable by [at(size() - 1)]; the elements before it are those
    held before, without the oldest when the buffer was full; the size grows
    by one up to the capacity. *)
Theorem push_appends item rb :
  wf rb ->
  exists rb',
    push item rb = (Return tt, rb') /\
    wf rb' /\
    contents rb' =
      (if size_ rb <? capacity_ rb then contents rb else tail (contents rb))
      ++ [item] /\
    size_ rb' = N.min (size_ rb + 1) (capacity_ rb) /\
    at_ (size_ rb' - 1) rb' = (Return item, rb').
Proof.
  intros Hwf. pose proof (pushed_wf item rb Hwf) as Hwf'.
  pose proof (contents_pushed item rb Hwf) as Hc.
  pose proof (wf_size _ Hwf) as Hs.
  assert (size_ (pushed item rb) = N.min (size_ rb + 1) (capacity_ rb)) as Hsz
    by (destruct (pushed_size item rb); [assumption|lia]).
  exists (pushed item rb). rewrite push_wf by assumption.
  repeat apply conj; auto.
  apply at_contents; [assumption|].
  pose proof (contents_length (pushed item rb)) as Hlen.
  rewrite Hc in Hlen |- *. rewrite length_app in Hlen.
  change (length [item]) with 1%nat in Hlen.
  rewrite lookup_app_r by lia.
  replace (N.to_nat (size_ (pushed item rb) - 1) - length _)%nat with 0%nat
    by lia.
  reflexivity.
Qed.

(** X5. [push(T&&)] and [emplace] always return and leave what [push] of the
    element leaves: the element moved in, or the one constructed from the
    arguments, becomes the last of the contents, the oldest one being
    dropped when the buffer was full. *)
Theorem push_move_emplace_append item args rb :
  wf rb ->
  exists rb1 rb2,
    push_move item rb = (Return tt, rb1) /\
    emplace args rb = (Return tt, rb2) /\
    wf rb1 /\ wf rb2 /\
    contents rb1 =
      (if size_ rb <? capacity_ rb then contents rb else tail (contents rb))
      ++ [item] /\
    contents rb2 =
      (if size_ rb <? capacity_ rb then contents rb else tail (contents rb))
      ++ [T_construct args].
Proof.
  intros Hwf. exists (pushed item rb), (pushed (T_construct args) rb).
  change (push_move item rb) with (push item rb).
  change (emplace args rb) with (push (T_construct args) rb).
  rewrite !push_wf by assumption.
  repeat apply conj; auto using pushed_wf, contents_pushed.
Qed.

(** X6. [try_push] never drops an element: the contents after the call are
    those before it, followed by the element when true is returned, and
    false is returned exactly when the buffer was full. *)
Theorem try_push_keeps_contents item rb :
  wf rb ->
  exists b rb',
    try_push item rb = (Return b, rb') /\
    try_push_move item rb = (Return b, rb') /\
    wf rb' /\
    contents rb' = contents rb ++ (if b then [item] else []) /\
    (b = false <-> size_ rb = capacity_ rb).
Proof.
  intros Hwf. change (try_push_move item rb) with (try_push item rb).
  destruct (N.eq_dec (size_ rb) (capacity_ rb)) as [Hf|Hf].
  - exists false, rb. rewrite try_push_full by assumption.
    repeat apply conj; auto. now rewrite app_nil_r.
  - exists true, (pushed item rb). rewrite try_push_wf by assumption.
    pose proof (wf_size _ Hwf).
    repeat apply conj; auto using pushed_wf; try discriminate; try congruence.
    rewrite contents_pushed by assumption.
    now assert ((size_ rb <? capacity_ rb) = true) as ->
      by (apply N.ltb_lt; lia).
Qed.

Lemma push_no_throw item rb e rb' : push item rb <> (Throw e, rb').
Proof.
  unfold push, bind, gets, vec_write, urem, modify, ret, undefined; simpl.
  destruct (N.to_nat (tail_ rb) <? length (buffer_ rb))%nat; simpl;
    [|discriminate].
  destruct (capacity_ rb =? 0); simpl; [discriminate|].
  destruct (size_ rb <? capacity_ rb); simpl; discriminate.
Qed.

Lemma vec_move_no_throw i rb e rb' : vec_move i rb <> (Throw e, rb').
Proof.
  unfold vec_move, bind, vec_read, vec_write, ret.
  destruct (buffer_ rb !! N.to_nat i); simpl; [|discriminate].
  destruct (N.to_nat i <? length (buffer_ rb))%nat; simpl; discriminate.
Qed.

Lemma discard_throw {A} (m : M A) rb e rb' :
  discard m rb = (Throw e, rb') -> m rb = (Throw e, rb').
Proof.
  unfold discard, bind, ret. destruct (m rb) as [[a|e'| |] rb'']; simpl;
    intros H; try discriminate.
  now injection H as -> ->.
Qed.

Lemma try_push_no_throw item rb e rb' : try_push item rb <> (Throw e, rb').
Proof.
  unfold try_push, bind at 1, full, gets, ret.
  destruct (size_ rb =? capacity_ rb); [discriminate|].
  unfold bind. pose proof (push_no_throw item rb) as H.
  destruct (push item rb) as [[a|e'| |] rb'']; simpl in *; try discriminate.
  intros [= -> ->]. now apply (H e rb').
Qed.

Lemma pop_throw rb e rb' : pop rb = (Throw e, rb') -> rb' = rb.
Proof.
  unfold pop, bind at 1, empty, gets, throw.
  destruct (size_ rb =? 0); [now intros [= _ ->]|].
  unfold bind at 1. unfold bind at 1.
  pose proof (vec_move_no_throw (head_ rb) rb) as H.
  destruct (vec_move (head_ rb) rb) as [[a|e'| |] rb'']; simpl in *;
    try discriminate.
  - unfold bind, gets, urem, modify, ret, undefined; simpl.
    destruct (capacity_ rb'' =? 0); simpl; discriminate.
  - intros [= -> ->]. now elim (H e rb').
Qed.

Lemma try_pop_no_throw out_item rb e rb' :
  try_pop out_item rb <> (Throw e, rb').
Proof.
  unfold try_pop, bind at 1, empty, gets, ret.
  destruct (size_ rb =? 0); [discriminate|].
  unfold bind at 1. unfold bind at 1.
  pose proof (vec_move_no_throw (head_ rb) rb) as H.
  destruct (vec_move (head_ rb) rb) as [[a|e'| |] rb'']; simpl in *;
    try discriminate.
  - unfold bind, gets, urem, modify, ret, undefined; simpl.
    destruct (capacity_ rb'' =? 0); simpl; discriminate.
  - intros [= -> ->]. now elim (H e rb').
Qed.

Lemma front_throw rb e rb' : front rb = (Throw e, rb') -> rb' = rb.
Proof.
  unfold front, bind, empty, gets, throw, vec_read.
  destruct (size_ rb =? 0); [now intros [= _ ->]|].
  destruct (buffer_ rb !! N.to_nat (head_ rb)); discriminate.
Qed.

Lemma at_throw index rb e rb' : at_ index rb = (Throw e, rb') -> rb' = rb.
Proof.
  unfold at_, bind, gets, throw, urem, undefined, ret, vec_read.
  destruct (size_ rb <=? index); [now intros [= _ ->]|].
  destruct (capacity_ rb =? 0); [discriminate|].
  destruct (buffer_ rb !! _); discriminate.
Qed.

Lemma at_const_throw index rb e rb' :
  at_const index rb = (Throw e, rb') -> rb' = rb.
Proof.
  unfold at_const, bind, gets, throw, urem, undefined, ret, vec_read.
  destruct (size_ rb <=? index); [now intros [= _ ->]|].
  destruct (capacity_ rb =? 0); [discriminate|].
  destruct (buffer_ rb !! _); discriminate.
Qed.

(** X7. Whatever the object, a call of a member function that throws
    leaves the object exactly as it was before the call. *)
Theorem throw_leaves_object o rb e :
  fst (call o rb) = Throw e -> snd (call o rb) = rb.
Proof.
  destruct (call o rb) as [r rb'] eqn:E. simpl. intros ->.
  destruct o as [v|v|a|v|v| |out| |i|i| | | | |]; simpl call in E.
  - now apply push_no_throw in E.
  - now apply (push_no_throw v) in E.
  - now apply (push_no_throw (T_construct a)) in E.
  - apply discard_throw in E. now apply try_push_no_throw in E.
  - apply discard_throw in E. now apply (try_push_no_throw v) in E.
  - apply discard_throw in E. now apply pop_throw in E.
  - apply discard_throw in E. now apply try_pop_no_throw in E.
  - apply discard_throw in E. now apply front_throw in E.
  - apply discard_throw in E. now apply at_throw in E.
  - apply discard_throw in E. now apply at_const_throw in E.
  - discriminate.
  - discriminate.
  - discriminate.
  - discriminate.
  - discriminate.
Qed.

(** X8. On a buffer a program can hold, the only calls that throw are [pop]
    and [front] on an empty buffer and [at] at an index that is not below
    the size; every insertion, [try_pop], [clear] and every query
    returns. *)
Theorem throws_exactly_when o rb :
  wf rb ->
  ((exists e, fst (call o rb) = Throw e) <->
   match o with
   | op_pop | op_front => size_ rb = 0
   | op_at index | op_at_const index => size_ rb <= index
   | _ => False
   end) /\
  ((exists e, fst (call o rb) = Throw e) \/ fst (call o rb) = Return tt).
Proof.
  intros Hwf. clear max_size can_allocate.
  destruct o as [v|v|a|v|v| |out| |i|i| | | | |]; simpl call.
  - rewrite push_wf by assumption. simpl. split; [|auto].
    split; [intros [e H]; discriminate|tauto].
  - change (push_move v rb) with (push v rb).
    rewrite push_wf by assumption. simpl. split; [|auto].
    split; [intros [e H]; discriminate|tauto].
  - change (emplace a rb) with (push (T_construct a) rb).
    rewrite push_wf by assumption. simpl. split; [|auto].
    split; [intros [e H]; discriminate|tauto].
  - unfold discard, bind.
    destruct (N.eq_dec (size_ rb) (capacity_ rb)) as [H|H];
      [rewrite try_push_full by assumption|rewrite try_push_wf by assumption];
      simpl; (split; [|auto]); (split; [intros [e H']; discriminate|tauto]).
  - unfold discard, bind. change (try_push_move v rb) with (try_push v rb).
    destruct (N.eq_dec (size_ rb) (capacity_ rb)) as [H|H];
      [rewrite try_push_full by assumption|rewrite try_push_wf by assumption];
      simpl; (split; [|auto]); (split; [intros [e H']; discriminate|tauto]).
  - unfold discard, bind. destruct (N.eq_dec (size_ rb) 0) as [H|H].
    + rewrite pop_empty by assumption. simpl. split; [|eauto].
      split; [auto|eauto].
    + rewrite pop_wf by assumption. simpl. split; [|auto].
      split; [intros [e H']; discriminate|tauto].
  - unfold discard, bind.
    destruct (N.eq_dec (size_ rb) 0) as [H|H];
      [rewrite try_pop_empty by assumption|rewrite try_pop_wf by assumption];
      simpl; (split; [|auto]); (split; [intros [e H']; discriminate|tauto]).
  - unfold discard, bind. destruct (N.eq_dec (size_ rb) 0) as [H|H].
    + rewrite front_empty by assumption. simpl. split; [|eauto].
      split; [auto|eauto].
    + rewrite front_wf by assumption. simpl. split; [|auto].
      split; [intros [e H']; discriminate|tauto].
  - unfold discard, bind. destruct (N.le_gt_cases (size_ rb) i) as [H|H].
    + rewrite at_out_of_bounds by assumption. simpl. split; [|eauto].
      split; [auto|eauto].
    + rewrite at_wf by assumption. simpl. split; [|auto].
      split; [intros [e H']; discriminate|lia].
  - unfold discard, bind. destruct (N.le_gt_cases (size_ rb) i) as [H|H].
    + rewrite at_const_out_of_bounds by assumption. simpl. split; [|eauto].
      split; [auto|eauto].
    + rewrite at_const_wf by assumption. simpl. split; [|auto].
      split; [intros [e H']; discriminate|lia].
  - simpl. split; [|auto]. split; [intros [e H]; discriminate|tauto].
  - simpl. split; [|auto]. split; [intros [e H]; discriminate|tauto].
  - simpl. split; [|auto]. split; [intros [e H]; discriminate|tauto].
  - simpl. split; [|auto]. split; [intros [e H]; discriminate|tauto].
  - simpl. split; [|auto]. split; [intros [e H]; discriminate|tauto].
Qed.

Lemma head_is_tail_when_empty rb : wf rb -> size_ rb = 0 -> head_ rb = tail_ rb.
Proof.
  intros [_ _ Hh _ _ Hte] H0. rewrite Hte, H0, N.add_0_r.
  symmetry. now apply N.mod_small.
Qed.

(** X9. On a buffer that is not empty [front()], [at(0)] and the [const]
    [at(0)] return the same element, the first of the logical contents, and
    none of them changes the object. *)
Theorem front_is_at_0 rb :
  wf rb -> size_ rb <> 0 ->
  exists x,
    front rb = (Return x, rb) /\
    at_ 0 rb = (Return x, rb) /\
    at_const 0 rb = (Return x, rb) /\
    head (contents rb) = Some x.
Proof.
  intros Hwf Hne.
  exists (nth (N.to_nat (head_ rb)) (buffer_ rb) T_default).
  rewrite front_wf, at_wf, at_const_wf by (assumption || lia).
  rewrite (slot_0 _ Hwf). repeat apply conj; auto.
  now rewrite (contents_popped rb) by assumption.
Qed.

(** X10. [begin()] and [end()] compare equal exactly when the buffer is
    empty, so a loop from one to the other is skipped exactly then; the
    [const] overloads and [cbegin()], [cend()] build the same iterators;
    the comparison only looks at the logical position. *)
Theorem begin_is_end_iff_empty rb :
  exists b e,
    begin rb = (Return b, rb) /\ end_ rb = (Return e, rb) /\
    begin_const rb = (Return b, rb) /\ end_const rb = (Return e, rb) /\
    cbegin rb = (Return b, rb) /\ cend rb = (Return e, rb) /\
    (iter_eq b e = true <-> size_ rb = 0) /\
    (iter_neq b e = true <-> size_ rb <> 0) /\
    (forall it it', iter_eq it it' = true <->
                    current_logical_index_ it = current_logical_index_ it').
Proof.
  exists (mkIterator 0 (head_ rb) (capacity_ rb)),
         (mkIterator (size_ rb) (head_ rb) (capacity_ rb)).
  unfold iter_neq, iter_eq; cbn [current_logical_index_].
  repeat apply conj; try reflexivity.
  - intros H. apply N.eqb_eq in H. congruence.
  - intros H. apply N.eqb_eq. congruence.
  - intros H. apply negb_true_iff, N.eqb_neq in H. congruence.
  - intros H. apply negb_true_iff, N.eqb_neq. congruence.
  - intros it it'. apply N.eqb_eq.
Qed.

(** X11. Popping until the buffer is empty returns exactly the elements a
    traversal yields, in the same order; the traversal leaves the object as
    it was, the removal leaves it empty with [head_] where [tail_] is. *)
Theorem drain_returns_traversal fuel rb :
  wf rb -> (N.to_nat (size_ rb) <= fuel)%nat ->
  exists xs rb',
    traverse fuel rb = (Return xs, rb) /\
    drain fuel rb = (Return xs, rb') /\
    size_ rb' = 0 /\
    head_ rb' = tail_ rb' /\
    capacity_ rb' = capacity_ rb.
Proof.
  intros Hwf Hfuel.
  destruct (drain_wf fuel rb Hwf Hfuel) as (rb' & Hd & Hwf' & Hs & Hc).
  exists (contents rb), rb'. rewrite traverse_wf by assumption.
  repeat apply conj; auto.
  apply head_is_tail_when_empty; auto.
Qed.

Lemma last_n_length c (l : list T) : length (last_n c l) = Nat.min c (length l).
Proof. unfold last_n. rewrite length_drop. lia. Qed.

(** X12. A sequence of [push] always returns and leaves a sliding window:
    the contents are the last [capacity_] elements of what was held followed
    by what was pushed, the size is the sum of the size before and the
    number pushed, capped at the capacity, and the capacity is
    unchanged. *)
Theorem push_all_window items rb :
  wf rb ->
  exists rb',
    push_all items rb = (Return tt, rb') /\
    wf rb' /\
    contents rb' = last_n (N.to_nat (capacity_ rb)) (contents rb ++ items) /\
    size_ rb' = N.min (size_ rb + N.of_nat (length items)) (capacity_ rb) /\
    capacity_ rb' = capacity_ rb.
Proof.
  intros Hwf. destruct (pushed_all_wf items rb Hwf) as [Hwf' Hc].
  pose proof (contents_pushed_all items rb Hwf) as Hcont.
  exists (pushed_all items rb). rewrite push_all_wf by assumption.
  repeat apply conj; auto.
  pose proof (contents_length (pushed_all items rb)) as Hlen.
  rewrite Hcont, last_n_length, length_app, contents_length in Hlen. lia.
Qed.

Lemma at_ref_wf rb index :
  wf rb -> index < size_ rb -> at_ref index rb = (Return (slot rb index), rb).
Proof.
  intros Hwf Hi. pose proof (wf_capacity_pos _ Hwf) as Hpos.
  pose proof (slot_lt _ index Hwf) as Hsl.
  destruct Hwf as [Hlen Hc Hh Ht Hs Hte].
  unfold at_ref, bind, gets, urem, ret, vec_ref.
  assert ((size_ rb <=? index) = false) as -> by (apply N.leb_gt; lia).
  assert ((capacity_ rb =? 0) = false) as -> by (apply N.eqb_neq; lia).
  rewrite uadd_small
    by (rewrite SIZE_MODULUS_val; rewrite PTRDIFF_MAX_val in Hc; lia).
  fold (slot rb index).
  now assert ((N.to_nat (slot rb index) <? length (buffer_ rb))%nat = true)
    as -> by (apply Nat.ltb_lt; lia).
Qed.

Lemma assigned_wf index v rb : wf rb -> wf (assigned index v rb).
Proof.
  intros [Hlen Hc Hh Ht Hs Hte]. constructor; simpl; try assumption.
  now rewrite length_insert.
Qed.

Lemma contents_assigned index v rb :
  wf rb -> index < size_ rb ->
  contents (assigned index v rb) = <[N.to_nat index := v]> (contents rb).
Proof.
  intros Hwf Hi. pose proof (wf_size _ Hwf) as Hs.
  apply list_eq. intros j.
  destruct (Nat.lt_ge_cases j (N.to_nat (size_ rb))) as [Hj|Hj].
  - rewrite contents_lookup by (simpl; assumption).
    change (slot (assigned index v rb) (N.of_nat j)) with (slot rb (N.of_nat j)).
    unfold assigned; simpl buffer_.
    destruct (Nat.eq_dec (N.to_nat index) j) as [<-|Hne].
    + rewrite N2Nat.id.
      rewrite list_lookup_insert_eq by (rewrite contents_length; lia).
      f_equal. apply nth_lookup_Some, list_lookup_insert_eq.
      pose proof (slot_lt _ index Hwf). rewrite (wf_storage _ Hwf). lia.
    + rewrite list_lookup_insert_ne by assumption.
      rewrite contents_lookup by assumption. f_equal.
      rewrite (nth_lookup (<[_:=_]> _)), list_lookup_insert_ne.
      * now rewrite <- nth_lookup.
      * intros Heq. apply N2Nat.inj in Heq.
        apply slot_inj in Heq; try assumption; lia.
  - rewrite !lookup_ge_None_2; [reflexivity| |].
    + rewrite length_insert, contents_length. lia.
    + rewrite contents_length. simpl. lia.
Qed.

(** X13. Assigning through the reference [at(index)] returns: for an index
    below the size it replaces the element at that logical position and
    nothing else ([at(index)] then returns the value, the other positions,
    the size, [head_] and [tail_] are as before); for an index that is not
    below the size it throws and leaves the object as it was. *)
Theorem at_assign_replaces index v rb :
  wf rb ->
  (index < size_ rb ->
   exists rb',
     at_assign index v rb = (Return tt, rb') /\
     wf rb' /\
     contents rb' = <[N.to_nat index := v]> (contents rb) /\
     at_ index rb' = (Return v, rb') /\
     (forall j, j <> index -> fst (at_ j rb') = fst (at_ j rb)) /\
     size_ rb' = size_ rb /\ head_ rb' = head_ rb /\ tail_ rb' = tail_ rb /\
     capacity_ rb' = capacity_ rb) /\
  (size_ rb <= index ->
   at_assign index v rb =
     (Throw (out_of_range "Index out of bounds for RingBuffer::at()"), rb)).
Proof.
  intros Hwf. split.
  - intros Hi. pose proof (assigned_wf index v rb Hwf) as Hwf'.
    pose proof (contents_assigned index v rb Hwf Hi) as Hc.
    exists (assigned index v rb).
    assert (at_assign index v rb = (Return tt, assigned index v rb)) as ->.
    { unfold at_assign, bind. rewrite at_ref_wf by assumption.
      unfold vec_write.
      pose proof (slot_lt _ index Hwf). pose proof (wf_storage _ Hwf).
      now assert ((N.to_nat (slot rb index) <? length (buffer_ rb))%nat = true)
        as -> by (apply Nat.ltb_lt; lia). }
    repeat apply conj; auto.
    + apply at_contents; [assumption|]. rewrite Hc.
      apply list_lookup_insert_eq. rewrite contents_length. lia.
    + intros j Hj. destruct (N.lt_ge_cases j (size_ rb)) as [Hlt|Hge].
      * rewrite (at_wf rb) by assumption.
        erewrite (at_contents (assigned index v rb)); [reflexivity|assumption|].
        rewrite Hc, list_lookup_insert_ne by lia.
        rewrite contents_lookup by lia. now rewrite N2Nat.id.
      * now rewrite !at_out_of_bounds by (simpl; assumption).
  - intros Hi. unfold at_assign, at_ref, bind, gets, throw.
    now assert ((size_ rb <=? index) = true) as -> by (apply N.leb_le; lia).
Qed.

(** X14. A buffer just constructed is empty and not full and a traversal of
    it yields nothing; after pushing no more elements than its capacity a
    traversal yields them in the order they were pushed, and the buffer is
    full exactly when as many as the capacity were pushed. *)
Theorem new_fill_traverse capacity rb items :
  max_size <= PTRDIFF_MAX ->
  RingBuffer_new capacity = Return rb ->
  (length items <= N.to_nat capacity)%nat ->
  exists rb',
    empty rb = (Return true, rb) /\
    full rb = (Return false, rb) /\
    traverse 0 rb = (Return [], rb) /\
    push_all items rb = (Return tt, rb') /\
    traverse (length items) rb' = (Return items, rb') /\
    (fst (full rb') = Return true <-> length items = N.to_nat capacity).
Proof.
  intros Hmax Hnew Hlen. pose proof (RingBuffer_new_wf _ _ Hmax Hnew) as Hwf.
  apply RingBuffer_new_Return in Hnew as (Hc & _ & Hrb).
  assert (capacity_ rb = capacity) as Hcap by (now subst rb).
  assert (size_ rb = 0) as H0 by (now subst rb).
  destruct (pushed_all_wf items rb Hwf) as [Hwf' Hc'].
  pose proof (pushed_all_size_empty items rb Hwf H0) as Hcont.
  rewrite Hcap in Hcont. specialize (Hcont Hlen).
  pose proof (contents_length (pushed_all items rb)) as Hsz.
  rewrite Hcont in Hsz.
  exists (pushed_all items rb). rewrite push_all_wf by assumption.
  rewrite (traverse_wf 0 rb) by (assumption || lia).
  rewrite (traverse_wf (length items)) by (assumption || lia).
  rewrite Hcont, (contents_empty rb H0).
  unfold empty, full, gets; simpl. rewrite H0, Hcap.
  assert ((0 =? capacity) = false) as -> by (apply N.eqb_neq; lia).
  repeat apply conj; auto.
  - intros [= H]. apply N.eqb_eq in H. lia.
  - intros H. f_equal. apply N.eqb_eq. lia.
Qed.

Lemma head_is_tail_when_full rb :
  wf rb -> size_ rb = capacity_ rb -> head_ rb = tail_ rb.
Proof.
  intros [_ _ Hh _ _ Hte] Hfull. rewrite Hte, Hfull.
  replace (head_ rb + capacity_ rb) with (head_ rb + 1 * capacity_ rb) by lia.
  rewrite N.Div0.mod_add. symmetry. now apply N.mod_small.
Qed.

(** X15. In a buffer of capacity one every [push] replaces what is held:
    afterwards the buffer is full, its only element is the one pushed, and
    [head_] and [tail_] are zero. *)
Theorem push_capacity_one item rb :
  wf rb -> capacity_ rb = 1 ->
  exists rb',
    push item rb = (Return tt, rb') /\
    contents rb' = [item] /\
    front rb' = (Return item, rb') /\
    full rb' = (Return true, rb') /\
    head_ rb' = 0 /\ tail_ rb' = 0.
Proof.
  intros Hwf Hc1. pose proof (pushed_wf item rb Hwf) as Hwf'.
  pose proof (contents_pushed item rb Hwf) as Hc.
  pose proof (wf_size _ Hwf) as Hsz. pose proof (wf_head _ Hwf') as Hh.
  pose proof (wf_tail _ Hwf') as Ht.
  assert (capacity_ (pushed item rb) = 1) as Hc1' by exact Hc1.
  assert (size_ (pushed item rb) = 1) as Hs1
    by (destruct (pushed_size item rb); lia).
  assert (contents (pushed item rb) = [item]) as Hcont.
  { rewrite Hc. pose proof (contents_length rb) as Hl.
    destruct (N.ltb_spec (size_ rb) (capacity_ rb)).
    - rewrite contents_empty by lia. reflexivity.
    - destruct (contents rb) as [|x [|y l]]; simpl in Hl; try lia.
      reflexivity. }
  exists (pushed item rb). rewrite push_wf by assumption.
  repeat apply conj; auto; try lia.
  - rewrite front_wf by (assumption || lia).
    assert (size_ (pushed item rb) <> 0) as Hne by lia.
    pose proof (contents_popped (pushed item rb) Hwf' Hne) as Hp.
    rewrite Hcont in Hp. injection Hp as Hp _. symmetry in Hp.
    exact (f_equal (fun x => (Return x, pushed item rb)) Hp).
  - unfold full, gets. now rewrite Hs1, Hc1'.
Qed.

(** X16. On a full buffer [push] leaves exactly the object that [pop]
    followed by [push] leaves. *)
Theorem push_full_is_pop_push item rb :
  wf rb -> size_ rb = capacity_ rb ->
  exists rb',
    push item rb = (Return tt, rb') /\
    (do ' pop; push item) rb = (Return tt, rb').
Proof.
  intros Hwf Hfull. pose proof (wf_capacity_pos _ Hwf).
  assert (size_ rb <> 0) as Hne by lia.
  exists (pushed item rb). unfold bind.
  rewrite pop_wf, !push_wf by (assumption || now apply popped_wf).
  now rewrite <- pushed_full.
Qed.

(** X17. The iterator does no bounds check: dereferencing [end()], a
    position at which [at] throws, returns the element stored in slot
    [tail_]; on a full buffer that is the front element. *)
Theorem deref_end_unchecked rb :
  wf rb ->
  exists e x,
    end_ rb = (Return e, rb) /\
    iter_deref e rb = (Return x, rb) /\
    buffer_ rb !! N.to_nat (tail_ rb) = Some x /\
    at_ (current_logical_index_ e) rb =
      (Throw (out_of_range "Index out of bounds for RingBuffer::at()"), rb) /\
    (size_ rb = capacity_ rb -> front rb = (Return x, rb)).
Proof.
  intros Hwf. pose proof (wf_size _ Hwf) as Hs.
  pose proof (wf_capacity_pos _ Hwf) as Hpos.
  exists (mkIterator (size_ rb) (head_ rb) (capacity_ rb)),
         (nth (N.to_nat (tail_ rb)) (buffer_ rb) T_default).
  rewrite iter_deref_wf, (slot_size _ Hwf) by assumption.
  rewrite at_out_of_bounds by (simpl; lia).
  repeat apply conj; auto.
  - apply wf_read; [assumption|]. now apply wf_tail.
  - intros Hfull. rewrite front_wf by (assumption || lia).
    assert (head_ rb = tail_ rb) as -> by (now apply head_is_tail_when_full).
    reflexivity.
Qed.

Lemma iter_incr_steps k : forall i h c,
  i + N.of_nat k < SIZE_MODULUS ->
  Nat.iter k iter_incr (mkIterator i h c) = mkIterator (i + N.of_nat k) h c.
Proof.
  induction k as [|k IH]; intros i h c Hk.
  - simpl. f_equal. lia.
  - rewrite Nat.iter_succ, IH by lia. unfold iter_incr; simpl.
    unfold uinc. rewrite uadd_small by lia. f_equal. lia.
Qed.

(** X18. Incrementing [begin()] [k] times, for [k] up to the size, gives
    the iterator at logical position [k], which compares equal to [end()]
    exactly when [k] is the size: the loop from [begin()] to [end()] makes
    exactly [size()] increments. The post-increment returns the iterator as
    it was and leaves it where the pre-increment does. *)
Theorem increments_reach_end k rb :
  wf rb -> (k <= N.to_nat (size_ rb))%nat ->
  exists b e,
    begin rb = (Return b, rb) /\ end_ rb = (Return e, rb) /\
    Nat.iter k iter_incr b =
      mkIterator (N.of_nat k) (head_ rb) (capacity_ rb) /\
    (iter_eq (Nat.iter k iter_incr b) e = true <-> k = N.to_nat (size_ rb)) /\
    iter_post_incr (Nat.iter k iter_incr b) =
      (Nat.iter k iter_incr b, Nat.iter (S k) iter_incr b).
Proof.
  intros Hwf Hk. pose proof (wf_size _ Hwf) as Hs.
  pose proof (wf_capacity_size_max _ Hwf) as Hmax.
  rewrite SIZE_MAX_val in Hmax.
  exists (mkIterator 0 (head_ rb) (capacity_ rb)),
         (mkIterator (size_ rb) (head_ rb) (capacity_ rb)).
  assert (Nat.iter k iter_incr (mkIterator 0 (head_ rb) (capacity_ rb)) =
          mkIterator (N.of_nat k) (head_ rb) (capacity_ rb)) as Hit
    by (rewrite iter_incr_steps by (rewrite SIZE_MODULUS_val; lia);
        now rewrite N.add_0_l).
  rewrite Nat.iter_succ, Hit. unfold iter_eq; cbn [current_logical_index_].
  repeat apply conj; try reflexivity.
  - intros H. apply N.eqb_eq in H. lia.
  - intros H. apply N.eqb_eq. lia.
Qed.

(** X19. After [pop] every remaining element is one logical position
    nearer the front: [at(i)] returns what [at(i + 1)] returned before, and
    the last position that was valid no longer is. *)
Theorem pop_shifts_positions rb :
  wf rb -> size_ rb <> 0 ->
  exists x rb',
    pop rb = (Return x, rb') /\
    at_ 0 rb = (Return x, rb) /\
    (forall i, i + 1 < size_ rb ->
       exists y, at_ (i + 1) rb = (Return y, rb) /\
                 at_ i rb' = (Return y, rb')) /\
    at_ (size_ rb - 1) rb' =
      (Throw (out_of_range "Index out of bounds for RingBuffer::at()"), rb').
Proof.
  intros Hwf Hne. pose proof (popped_wf _ Hwf Hne) as Hwf'.
  pose proof (contents_popped rb Hwf Hne) as Hc.
  exists (nth (N.to_nat (head_ rb)) (buffer_ rb) T_default), (popped rb).
  rewrite pop_wf by assumption. repeat apply conj; auto.
  - rewrite at_wf by (assumption || lia). now rewrite (slot_0 _ Hwf).
  - intros i Hi.
    exists (nth (N.to_nat (slot rb (i + 1))) (buffer_ rb) T_default).
    rewrite at_wf by assumption. split; [reflexivity|].
    apply at_contents; [assumption|].
    assert (contents rb !! S (N.to_nat i) =
            Some (nth (N.to_nat (slot rb (i + 1))) (buffer_ rb) T_default)) as H.
    { rewrite contents_lookup by lia.
      now replace (N.of_nat (S (N.to_nat i))) with (i + 1) by lia. }
    rewrite Hc in H. exact H.
  - apply at_out_of_bounds. simpl. lia.
Qed.

End RingBuffer.

(** ** Instances on concrete buffers

    Elements are numbers, [T()] is [0], a moved-from number keeps its value,
    [emplace] builds the successor of its argument, the vector's
    [max_size()] is [PTRDIFF_MAX] and the allocator hands out up to [2^32]
    elements. *)

Ltac wf_concrete :=
  constructor; vm_compute; (reflexivity || discriminate).

(** The scenario of a buffer of capacity three. *)
Example concrete_scenario :
  exists rb0 rb3 rb4 rb5 rb6,
    RingBuffer_new 0 PTRDIFF_MAX (fun n => n <=? 2 ^ 32) 3 = Return rb0 /\
    push_all [1; 2; 3] rb0 = (Return tt, rb3) /\
    full rb3 = (Return true, rb3) /\ size rb3 = (Return 3, rb3) /\
    push 4 rb3 = (Return tt, rb4) /\
    front rb4 = (Return 2, rb4) /\
    at_ 0 rb4 = (Return 2, rb4) /\ at_ 1 rb4 = (Return 3, rb4) /\
    at_ 2 rb4 = (Return 4, rb4) /\
    pop id rb4 = (Return 2, rb5) /\ size rb5 = (Return 2, rb5) /\
    try_push 5 rb5 = (Return true, rb6) /\
    traverse 3 rb6 = (Return [3; 4; 5], rb6).
Proof. do 5 eexists. repeat apply conj; vm_compute; reflexivity. Qed.

Lemma structural_invariants_witness :
  1 <= 3 /\
  Forall (fun r : result unit * RingBuffer =>
            safe (fst r) /\
            head_ (snd r) < capacity_ (snd r) /\
            tail_ (snd r) < capacity_ (snd r) /\
            0 <= size_ (snd r) <= capacity_ (snd r) /\
            tail_ (snd r) = (head_ (snd r) + size_ (snd r)) mod capacity_ (snd r) /\
            capacity_ (snd r) = 3)
         (run id N.succ
              [op_push 1; op_push_move 2; op_push 3; op_push 4; op_pop;
               op_try_push 5; op_try_push 6; op_emplace 6; op_try_pop 0;
               op_front; op_at 1; op_at 7; op_clear; op_pop; op_try_pop 0]
              (mkRingBuffer [0; 0; 0] 3 0 0 0)).
Proof.
  apply (structural_invariants 0 id N.succ PTRDIFF_MAX
           (fun n => n <=? 2 ^ 32) 3).
  - apply N.le_refl.
  - reflexivity.
Defined.

Lemma fifo_order_witness :
  exists rb1 rb2,
    push_all [10; 20; 30] (mkRingBuffer [7; 8; 9] 3 2 2 0) = (Return tt, rb1) /\
    pop_n id 3 rb1 = (Return [10; 20; 30], rb2) /\
    size_ rb2 = 0.
Proof.
  apply (fifo_order 0 id (mkRingBuffer [7; 8; 9] 3 2 2 0) [10; 20; 30]).
  - wf_concrete.
  - reflexivity.
  - simpl. lia.
Defined.

Lemma overwrite_keeps_last_witness :
  exists rb1 rb2,
    push_all [1; 2; 3; 4; 5] (mkRingBuffer [7; 8; 9] 3 2 2 0) = (Return tt, rb1) /\
    drain id 3 rb1 = (Return [3; 4; 5], rb2) /\
    length [3; 4; 5] = 3%nat /\
    size_ rb2 = 0.
Proof.
  apply (overwrite_keeps_last 0 id (mkRingBuffer [7; 8; 9] 3 2 2 0)
                              [1; 2; 3; 4; 5] 2 3).
  - wf_concrete.
  - reflexivity.
  - reflexivity.
  - simpl. lia.
Defined.

Lemma try_push_rejects_when_full_witness :
  try_push 9 (mkRingBuffer [1; 2; 3] 3 1 1 3) =
    (Return false, mkRingBuffer [1; 2; 3] 3 1 1 3) /\
  try_push 9 (mkRingBuffer [1; 2; 3] 3 1 0 2) =
    (Return true, mkRingBuffer [9; 2; 3] 3 1 1 3).
Proof.
  split.
  - assert (wf (mkRingBuffer [1; 2; 3] 3 1 1 3)) as Hwf by wf_concrete.
    destruct (try_push_rejects_when_full 9 _ Hwf) as [Hfull _].
    destruct (Hfull eq_refl) as [H _]. exact H.
  - assert (wf (mkRingBuffer [1; 2; 3] 3 1 0 2)) as Hwf by wf_concrete.
    destruct (try_push_rejects_when_full 9 _ Hwf) as [_ Hroom].
    destruct (Hroom eq_refl) as (_ & H & _). exact H.
Defined.

Lemma pop_front_try_pop_witness :
  pop id (mkRingBuffer [7; 8; 9] 3 2 2 0) =
    (Throw (out_of_range "Cannot pop from an empty RingBuffer."),
     mkRingBuffer [7; 8; 9] 3 2 2 0) /\
  exists x rb',
    pop id (mkRingBuffer [1; 2; 3] 3 1 0 2) = (Return x, rb') /\
    head_ rb' = 2 /\ size_ rb' + 1 = 2.
Proof.
  split.
  - assert (wf (mkRingBuffer [7; 8; 9] 3 2 2 0)) as Hwf by wf_concrete.
    destruct (pop_front_try_pop 0 id 0 _ Hwf) as [Hempty _].
    destruct (Hempty eq_refl) as [H _]. exact H.
  - assert (wf (mkRingBuffer [1; 2; 3] 3 1 0 2)) as Hwf by wf_concrete.
    destruct (pop_front_try_pop 0 id 0 _ Hwf) as [_ Hne].
    destruct Hne as (x & rb' & _ & _ & Hpop & _ & Hh & Hs & _);
      [discriminate|].
    exists x, rb'. repeat apply conj; assumption.
Defined.

Lemma at_checks_bounds_witness :
  (exists x, at_ 1 (mkRingBuffer [1; 2; 3] 3 1 0 2) =
               (Return x, mkRingBuffer [1; 2; 3] 3 1 0 2)) /\
  at_ 2 (mkRingBuffer [1; 2; 3] 3 1 0 2) =
    (Throw (out_of_range "Index out of bounds for RingBuffer::at()"),
     mkRingBuffer [1; 2; 3] 3 1 0 2).
Proof.
  assert (wf (mkRingBuffer [1; 2; 3] 3 1 0 2)) as Hwf by wf_concrete.
  split.
  - destruct (at_checks_bounds 0 1 _ Hwf) as (Hin & _ & _).
    destruct Hin as (x & _ & _ & H & _); [reflexivity|].
    exists x. exact H.
  - destruct (at_checks_bounds 0 2 _ Hwf) as (_ & Hout & _).
    destruct Hout as [H _]; [vm_compute; discriminate|]. exact H.
Defined.

Lemma construction_witness :
  RingBuffer_new 0 PTRDIFF_MAX (fun n => n <=? 2 ^ 32) 0 =
    Throw (invalid_argument "RingBuffer capacity must be greater than 0.") /\
  RingBuffer_new 0 PTRDIFF_MAX (fun n => n <=? 2 ^ 32) SIZE_MAX =
    Throw length_error /\
  RingBuffer_new 0 PTRDIFF_MAX (fun n => n <=? 2 ^ 32) PTRDIFF_MAX =
    Throw bad_alloc /\
  (exists rb,
     RingBuffer_new 0 PTRDIFF_MAX (fun n => n <=? 2 ^ 32) 3 = Return rb /\
     size_ rb = 0 /\ length (buffer_ rb) = 3%nat).
Proof.
  repeat apply conj.
  - apply (construction 0 PTRDIFF_MAX (fun n => n <=? 2 ^ 32) 0). reflexivity.
  - apply (construction 0 PTRDIFF_MAX (fun n => n <=? 2 ^ 32) SIZE_MAX);
      vm_compute; (reflexivity || discriminate).
  - apply (construction 0 PTRDIFF_MAX (fun n => n <=? 2 ^ 32) PTRDIFF_MAX).
    + split; vm_compute; discriminate.
    + reflexivity.
  - destruct (construction 0 PTRDIFF_MAX (fun n => n <=? 2 ^ 32) 3)
      as (_ & _ & _ & Hok).
    destruct Hok as (rb & H1 & H2 & _ & _ & _ & H3).
    + split; vm_compute; discriminate.
    + reflexivity.
    + exists rb. exact (conj H1 (conj H2 H3)).
Defined.

(** C7 as it was stated fails: a capacity of at least one for which
    construction does not succeed, however much memory there is. *)
Lemma construction_above_max_size :
  1 <= SIZE_MAX /\
  RingBuffer_new 0 PTRDIFF_MAX (fun _ => true) SIZE_MAX = Throw length_error /\
  ~ exists rb,
      RingBuffer_new 0 PTRDIFF_MAX (fun _ => true) SIZE_MAX = Return rb.
Proof.
  repeat apply conj.
  - vm_compute. discriminate.
  - reflexivity.
  - intros [rb H]. discriminate H.
Qed.

Lemma traversal_yields_contents_witness :
  exists xs,
    traverse 2 (mkRingBuffer [1; 2; 3] 3 2 1 2) =
      (Return xs, mkRingBuffer [1; 2; 3] 3 2 1 2) /\
    length xs = 2%nat /\
    xs !! 1%nat = Some 1.
Proof.
  assert (wf (mkRingBuffer [1; 2; 3] 3 2 1 2)) as Hwf by wf_concrete.
  destruct (traversal_yields_contents 0 2 _ Hwf) as (xs & Ht & Hl & Hx).
  - simpl. lia.
  - exists xs. repeat apply conj; [exact Ht|exact Hl|].
    destruct (Hx 1) as (x & H1 & H2 & _); [reflexivity|].
    vm_compute in H2. injection H2 as <-. exact H1.
Defined.

Lemma no_undefined_behaviour_witness :
  1 <= 2 /\
  Forall (fun r : result unit * RingBuffer =>
            safe (fst r) /\
            capacity_ (snd r) = 2 /\
            length (buffer_ (snd r)) = N.to_nat 2 /\
            forall it, buffer_capacity_ it = capacity_ (snd r) ->
                       safe (fst (iter_deref it (snd r))))
         (run id N.succ
              [op_pop; op_push 1; op_emplace 1; op_push_move 3; op_at 1;
               op_at_const 2; op_try_pop 0; op_pop; op_pop; op_front]
              (mkRingBuffer [0; 0] 2 0 0 0)).
Proof.
  destruct (no_undefined_behaviour 0 id N.succ PTRDIFF_MAX
              (fun n => n <=? 2 ^ 32) 2
              (mkRingBuffer [0; 0] 2 0 0 0)
              [op_pop; op_push 1; op_emplace 1; op_push_move 3; op_at 1;
               op_at_const 2; op_try_pop 0; op_pop; op_pop; op_front])
    as (H1 & H2 & _).
  - apply N.le_refl.
  - reflexivity.
  - split; assumption.
Defined.

Lemma try_pop_out_item_witness :
  try_pop id 42 (mkRingBuffer [7; 8; 9] 3 2 2 0) =
    (Return (false, 42), mkRingBuffer [7; 8; 9] 3 2 2 0) /\
  exists b out_item' rb',
    try_pop id 42 (mkRingBuffer [1; 2; 3] 3 1 0 2) =
      (Return (b, out_item'), rb') /\
    (b = true <-> 2 <> 0).
Proof.
  split.
  - assert (wf (mkRingBuffer [7; 8; 9] 3 2 2 0)) as Hwf by wf_concrete.
    destruct (try_pop_out_item 0 id 42 _ Hwf) as [H _]. apply H. reflexivity.
  - assert (wf (mkRingBuffer [1; 2; 3] 3 1 0 2)) as Hwf by wf_concrete.
    destruct (try_pop_out_item 0 id 42 _ Hwf) as (_ & b & o & rb' & H1 & H2 & _).
    exists b, o, rb'. split; assumption.
Defined.

(** ** Instances of the further properties *)

Lemma clear_resets_witness :
  exists rb0,
    clear (mkRingBuffer [1; 2; 3] 3 1 1 3) = (Return tt, rb0) /\
    contents 0 rb0 = [] /\
    contents 0 (snd (push_all [4; 5; 6; 7] rb0)) = [5; 6; 7].
Proof.
  assert (wf (mkRingBuffer [1; 2; 3] 3 1 1 3)) as Hwf by wf_concrete.
  destruct (clear_resets 0 id _ [4; 5; 6; 7] Hwf)
    as (rb0 & H1 & _ & _ & _ & _ & _ & H2 & _ & H3).
  exists rb0. repeat apply conj; assumption.
Defined.

Lemma empty_full_exclusive_witness :
  (fst (full (mkRingBuffer [1; 2; 3] 3 1 1 3)) = Return true <->
   length (contents 0 (mkRingBuffer [1; 2; 3] 3 1 1 3)) = N.to_nat 3) /\
  ~ (fst (empty (mkRingBuffer [1; 2; 3] 3 1 1 3)) = Return true /\
     fst (full (mkRingBuffer [1; 2; 3] 3 1 1 3)) = Return true).
Proof.
  assert (wf (mkRingBuffer [1; 2; 3] 3 1 1 3)) as Hwf by wf_concrete.
  destruct (empty_full_exclusive 0 _ Hwf) as (_ & H2 & H3).
  split; assumption.
Defined.

Lemma head_meets_tail_witness :
  head_ (mkRingBuffer [1; 2; 3] 3 1 1 3) = tail_ (mkRingBuffer [1; 2; 3] 3 1 1 3)
  <-> 3 = 0 \/ 3 = 3.
Proof.
  apply (head_meets_tail (mkRingBuffer [1; 2; 3] 3 1 1 3)). wf_concrete.
Defined.

Lemma push_appends_witness :
  exists rb',
    push 4 (mkRingBuffer [1; 2; 3] 3 1 1 3) = (Return tt, rb') /\
    contents 0 rb' = [3; 1; 4] /\
    at_ 2 rb' = (Return 4, rb').
Proof.
  assert (wf (mkRingBuffer [1; 2; 3] 3 1 1 3)) as Hwf by wf_concrete.
  destruct (push_appends 0 id 4 _ Hwf) as (rb' & H1 & _ & H2 & H3 & H4).
  exists rb'. repeat apply conj; [exact H1|exact H2|].
  rewrite H3 in H4. exact H4.
Defined.

Lemma push_move_emplace_append_witness :
  exists rb1 rb2,
    push_move 4 (mkRingBuffer [1; 2; 3] 3 1 0 2) = (Return tt, rb1) /\
    emplace N.succ 8 (mkRingBuffer [1; 2; 3] 3 1 0 2) = (Return tt, rb2) /\
    contents 0 rb1 = [2; 3; 4] /\
    contents 0 rb2 = [2; 3; 9].
Proof.
  assert (wf (mkRingBuffer [1; 2; 3] 3 1 0 2)) as Hwf by wf_concrete.
  destruct (push_move_emplace_append 0 id N.succ 4 8 _ Hwf)
    as (rb1 & rb2 & H1 & H2 & _ & _ & H3 & H4).
  exists rb1, rb2. repeat apply conj; assumption.
Defined.

Lemma try_push_keeps_contents_witness :
  exists b rb',
    try_push 4 (mkRingBuffer [1; 2; 3] 3 1 1 3) = (Return b, rb') /\
    contents 0 rb' = [2; 3; 1] ++ (if b then [4] else []) /\
    (b = false <-> 3 = 3).
Proof.
  assert (wf (mkRingBuffer [1; 2; 3] 3 1 1 3)) as Hwf by wf_concrete.
  destruct (try_push_keeps_contents 0 id 4 _ Hwf)
    as (b & rb' & H1 & _ & _ & H2 & H3).
  exists b, rb'. exact (conj H1 (conj H2 H3)).
Defined.

Lemma throw_leaves_object_witness :
  snd (call id N.succ (op_at 5) (mkRingBuffer [1; 2; 3] 3 1 0 2)) =
    mkRingBuffer [1; 2; 3] 3 1 0 2.
Proof.
  apply (throw_leaves_object id N.succ (op_at 5) _
           (out_of_range "Index out of bounds for RingBuffer::at()")).
  reflexivity.
Defined.

Lemma throws_exactly_when_witness :
  ((exists e, fst (call id N.succ op_pop (mkRingBuffer [7; 8; 9] 3 2 2 0)) =
              Throw e) <-> 0 = 0) /\
  ((exists e, fst (call id N.succ (op_push 1) (mkRingBuffer [7; 8; 9] 3 2 2 0)) =
              Throw e) <-> False).
Proof.
  assert (wf (mkRingBuffer [7; 8; 9] 3 2 2 0)) as Hwf by wf_concrete.
  split.
  - apply (throws_exactly_when 0 id N.succ op_pop _ Hwf).
  - apply (throws_exactly_when 0 id N.succ (op_push 1) _ Hwf).
Defined.

Lemma front_is_at_0_witness :
  exists x,
    front (mkRingBuffer [1; 2; 3] 3 1 0 2) =
      (Return x, mkRingBuffer [1; 2; 3] 3 1 0 2) /\
    at_ 0 (mkRingBuffer [1; 2; 3] 3 1 0 2) =
      (Return x, mkRingBuffer [1; 2; 3] 3 1 0 2).
Proof.
  assert (wf (mkRingBuffer [1; 2; 3] 3 1 0 2)) as Hwf by wf_concrete.
  destruct (front_is_at_0 0 id _ Hwf) as (x & H1 & H2 & _).
  - discriminate.
  - exists x. split; assumption.
Defined.

Lemma drain_returns_traversal_witness :
  exists xs rb',
    traverse 3 (mkRingBuffer [1; 2; 3] 3 1 1 3) =
      (Return xs, mkRingBuffer [1; 2; 3] 3 1 1 3) /\
    drain id 3 (mkRingBuffer [1; 2; 3] 3 1 1 3) = (Return xs, rb') /\
    size_ rb' = 0.
Proof.
  assert (wf (mkRingBuffer [1; 2; 3] 3 1 1 3)) as Hwf by wf_concrete.
  destruct (drain_returns_traversal 0 id 3 _ Hwf)
    as (xs & rb' & H1 & H2 & H3 & _).
  - simpl. lia.
  - exists xs, rb'. repeat apply conj; assumption.
Defined.

Lemma push_all_window_witness :
  exists rb',
    push_all [4; 5] (mkRingBuffer [1; 2; 3] 3 1 0 2) = (Return tt, rb') /\
    contents 0 rb' = [3; 4; 5] /\
    size_ rb' = 3.
Proof.
  assert (wf (mkRingBuffer [1; 2; 3] 3 1 0 2)) as Hwf by wf_concrete.
  destruct (push_all_window 0 id [4; 5] _ Hwf) as (rb' & H1 & _ & H2 & H3 & _).
  exists rb'. repeat apply conj; assumption.
Defined.

Lemma at_assign_replaces_witness :
  (exists rb',
     at_assign 1 9 (mkRingBuffer [1; 2; 3] 3 2 1 2) = (Return tt, rb') /\
     contents 0 rb' = [3; 9]) /\
  at_assign 2 9 (mkRingBuffer [1; 2; 3] 3 2 1 2) =
    (Throw (out_of_range "Index out of bounds for RingBuffer::at()"),
     mkRingBuffer [1; 2; 3] 3 2 1 2).
Proof.
  assert (wf (mkRingBuffer [1; 2; 3] 3 2 1 2)) as Hwf by wf_concrete.
  split.
  - destruct (at_assign_replaces 0 1 9 _ Hwf) as [Hin _].
    destruct Hin as (rb' & H1 & _ & H2 & _); [reflexivity|].
    exists rb'. split; assumption.
  - destruct (at_assign_replaces 0 2 9 _ Hwf) as [_ Hout].
    apply Hout. vm_compute. discriminate.
Defined.

Lemma new_fill_traverse_witness :
  exists rb',
    push_all [1; 2] (mkRingBuffer [0; 0; 0] 3 0 0 0) = (Return tt, rb') /\
    traverse 2 rb' = (Return [1; 2], rb') /\
    (fst (full rb') = Return true <-> 2%nat = N.to_nat 3).
Proof.
  destruct (new_fill_traverse 0 id PTRDIFF_MAX (fun n => n <=? 2 ^ 32) 3
              (mkRingBuffer [0; 0; 0] 3 0 0 0) [1; 2])
    as (rb' & _ & _ & _ & H1 & H2 & H3).
  - apply N.le_refl.
  - reflexivity.
  - simpl. lia.
  - exists rb'. exact (conj H1 (conj H2 H3)).
Defined.

Lemma push_capacity_one_witness :
  exists rb',
    push 8 (mkRingBuffer [7] 1 0 0 1) = (Return tt, rb') /\
    contents 0 rb' = [8] /\
    front rb' = (Return 8, rb').
Proof.
  assert (wf (mkRingBuffer [7] 1 0 0 1)) as Hwf by wf_concrete.
  destruct (push_capacity_one 0 id 8 _ Hwf) as (rb' & H1 & H2 & H3 & _).
  - reflexivity.
  - exists rb'. repeat apply conj; assumption.
Defined.

Lemma push_full_is_pop_push_witness :
  exists rb',
    push 4 (mkRingBuffer [1; 2; 3] 3 1 1 3) = (Return tt, rb') /\
    bind (pop id) (fun _ => push 4) (mkRingBuffer [1; 2; 3] 3 1 1 3) =
      (Return tt, rb').
Proof.
  apply (push_full_is_pop_push 0 id 4 (mkRingBuffer [1; 2; 3] 3 1 1 3)).
  - wf_concrete.
  - reflexivity.
Defined.

Lemma deref_end_unchecked_witness :
  exists e x,
    end_ (mkRingBuffer [1; 2; 3] 3 1 1 3) =
      (Return e, mkRingBuffer [1; 2; 3] 3 1 1 3) /\
    iter_deref e (mkRingBuffer [1; 2; 3] 3 1 1 3) =
      (Return x, mkRingBuffer [1; 2; 3] 3 1 1 3) /\
    front (mkRingBuffer [1; 2; 3] 3 1 1 3) =
      (Return x, mkRingBuffer [1; 2; 3] 3 1 1 3).
Proof.
  assert (wf (mkRingBuffer [1; 2; 3] 3 1 1 3)) as Hwf by wf_concrete.
  destruct (deref_end_unchecked 0 _ Hwf) as (e & x & H1 & H2 & _ & _ & H3).
  exists e, x. repeat apply conj; [exact H1|exact H2|].
  apply H3. reflexivity.
Defined.

Lemma increments_reach_end_witness :
  exists b e,
    begin (mkRingBuffer [1; 2; 3] 3 1 0 2) =
      (Return b, mkRingBuffer [1; 2; 3] 3 1 0 2) /\
    end_ (mkRingBuffer [1; 2; 3] 3 1 0 2) =
      (Return e, mkRingBuffer [1; 2; 3] 3 1 0 2) /\
    (iter_eq (Nat.iter 2 iter_incr b) e = true <-> 2%nat = N.to_nat 2).
Proof.
  assert (wf (mkRingBuffer [1; 2; 3] 3 1 0 2)) as Hwf by wf_concrete.
  destruct (increments_reach_end 2 _ Hwf) as (b & e & H1 & H2 & _ & H3 & _).
  - simpl. lia.
  - exists b, e. exact (conj H1 (conj H2 H3)).
Defined.

Lemma pop_shifts_positions_witness :
  exists x rb',
    pop id (mkRingBuffer [1; 2; 3] 3 1 1 3) = (Return x, rb') /\
    exists y,
      at_ 1 (mkRingBuffer [1; 2; 3] 3 1 1 3) =
        (Return y, mkRingBuffer [1; 2; 3] 3 1 1 3) /\
      at_ 0 rb' = (Return y, rb').
Proof.
  assert (wf (mkRingBuffer [1; 2; 3] 3 1 1 3)) as Hwf by wf_concrete.
  destruct (pop_shifts_positions 0 id _ Hwf) as (x & rb' & H1 & _ & H2 & _).
  - discriminate.
  - exists x, rb'. split; [exact H1|].
    apply (H2 0). reflexivity.
Defined.

End ringbuff.
